(** * go-echowr: route groups, route specifications and registration

    A shallow embedding of [server.go]: the [Kind] enumeration and its
    [String] method, the [RegisterRouters] builder (a list of path /
    method-map entries with a fixed path prefix) and the registration
    functions of [Server], which bind the entries of a builder onto an Echo
    engine or onto one of its groups.

    Go strings are byte sequences; they are modelled as [string], a list of
    8-bit characters.  A Go [map[string]HandlerFunc] is a [gmap string H].
    Handlers and middlewares are opaque values of the types [H] and [Mw]. *)

From Stdlib Require Import ZArith String Ascii List Bool Lia.
From stdpp Require Import base option list gmap strings.

Local Open Scope Z_scope.

(** ** Results of Go calls

    A call returns a value ([Ok]), returns a non-nil [error] ([Err]) or
    panics at run time ([Panic]). *)

Inductive error : Type :=
| InvalidGroup                          (* fmt.Errorf("invalid group type") *)
| UnsupportedMethod (method : string)   (* fmt.Errorf("unsupported method: %s", method) *)
| EngineTypeNotSupported.               (* fmt.Errorf("engine type not supported") *)

Definition error_Error (e : error) : string :=
  match e with
  | InvalidGroup => "invalid group type"
  | UnsupportedMethod method => "unsupported method: " +:+ method
  | EngineTypeNotSupported => "engine type not supported"
  end.

Inductive outcome (A : Type) : Type :=
| Ok (a : A)
| Err (e : error)
| Panic (msg : string).

Arguments Ok {A} a.
Arguments Err {A} e.
Arguments Panic {A} msg.

(** ** Kind: the router groups *)

Definition Kind : Type := Z.

Definition ROOT : Kind := 0.
Definition V1 : Kind := 1.
Definition V2 : Kind := 2.
Definition V3 : Kind := 3.
Definition DEV : Kind := 4.
Definition API : Kind := 5.
Definition DOCS : Kind := 6.

Definition Kind_names : list string :=
  ["root"; "v1"; "v2"; "v3"; "dev"; "api"; "docs"]%string.

(** [Kind.String] indexes a seven-element array with [k]; Go panics when the
    index is negative or not below the length. *)
Definition Kind_String (k : Kind) : outcome string :=
  if (0 <=? k) && (k <? Z.of_nat (length Kind_names))
  then Ok (nth (Z.to_nat k) Kind_names EmptyString)
  else Panic "index out of range".

(** The values of the enumeration. *)
Definition Kind_valid (k : Kind) : bool := (ROOT <=? k) && (k <=? DOCS).

(** ** The functions of package strings used by the builder

    [strings.TrimSpace] removes the leading and the trailing white space of
    a string, as Unicode defines it, rune by rune in the UTF-8 encoding.  A
    white-space rune is one of the six ASCII characters below or one of the
    two- and three-byte encodings of U+0085, U+00A0, U+1680, U+2000 to
    U+200A, U+2028, U+2029, U+202F, U+205F and U+3000. *)

Definition asciiSpace (c : ascii) : bool :=
  let n := nat_of_ascii c in
  (((9 <=? n) && (n <=? 13)) || (n =? 32))%nat.

Definition isSpace2 (c1 c2 : ascii) : bool :=
  let a := nat_of_ascii c1 in
  let b := nat_of_ascii c2 in
  ((a =? 194) && ((b =? 133) || (b =? 160)))%nat.

Definition isSpace3 (c1 c2 c3 : ascii) : bool :=
  let a := nat_of_ascii c1 in
  let b := nat_of_ascii c2 in
  let c := nat_of_ascii c3 in
  (((a =? 225) && (b =? 154) && (c =? 128))
   || ((a =? 226) && (b =? 128)
       && (((128 <=? c) && (c <=? 138)) || (c =? 168) || (c =? 169) || (c =? 175)))
   || ((a =? 226) && (b =? 129) && (c =? 159))
   || ((a =? 227) && (b =? 128) && (c =? 128)))%nat.

(** Leading white space: the first rune is dropped while it is a space. *)
Fixpoint TrimLeftSpace (s : string) : string :=
  match s with
  | String c1 r1 =>
      if asciiSpace c1 then TrimLeftSpace r1
      else match r1 with
           | String c2 r2 =>
               if isSpace2 c1 c2 then TrimLeftSpace r2
               else match r2 with
                    | String c3 r3 =>
                        if isSpace3 c1 c2 c3 then TrimLeftSpace r3 else s
                    | EmptyString => s
                    end
           | EmptyString => s
           end
  | EmptyString => s
  end.

(** Trailing white space, on the reversed byte list: the last rune is
    dropped while it is a space. *)
Fixpoint trimLeftSpaceRev (l : list ascii) : list ascii :=
  match l with
  | c1 :: r1 =>
      if asciiSpace c1 then trimLeftSpaceRev r1
      else match r1 with
           | c2 :: r2 =>
               if isSpace2 c2 c1 then trimLeftSpaceRev r2
               else match r2 with
                    | c3 :: r3 =>
                        if isSpace3 c3 c2 c1 then trimLeftSpaceRev r3 else l
                    | [] => l
                    end
           | [] => l
           end
  | [] => l
  end.

Definition TrimRightSpace (s : string) : string :=
  string_of_list_ascii
    (rev (trimLeftSpaceRev (rev (list_ascii_of_string s)))).

Definition TrimSpace (s : string) : string :=
  TrimRightSpace (TrimLeftSpace s).

(** [strings.HasPrefix] and [strings.Contains]: [substr] occurs in [s] when
    it is a prefix of [s] from some position on. *)
Fixpoint HasPrefix (s prefix : string) : bool :=
  match prefix, s with
  | EmptyString, _ => true
  | String a p, String b s' => if Ascii.eqb a b then HasPrefix s' p else false
  | String _ _, EmptyString => false
  end.

Fixpoint Contains (s substr : string) : bool :=
  HasPrefix s substr
  || match s with
     | String _ s' => Contains s' substr
     | EmptyString => false
     end.

(** ** RegisterRouter and RegisterRouters: the builder *)

Section Builder.

Variable H : Type.   (* HandlerFunc *)

Record RegisterRouter : Type := mkRegisterRouter {
  Path : string;
  Methods : gmap string H
}.

Record RegisterRouters : Type := mkRegisterRouters {
  PathFixed : string;
  Routers : list RegisterRouter
}.

(** The methods have a pointer receiver and update the struct in place;
    here they take the struct and return the updated one. *)

Definition NewRouters : RegisterRouters :=
  {| PathFixed := EmptyString; Routers := [] |}.

Definition AddRouter (path : string) (methods : gmap string H)
    (r : RegisterRouters) : RegisterRouters :=
  {| PathFixed := PathFixed r;
     Routers := Routers r ++ [ {| Path := path; Methods := methods |} ] |}.

Definition AddRouterFx (params : string) (methods : gmap string H)
    (r : RegisterRouters) : RegisterRouters :=
  let path := TrimSpace params in
  let path := if (0 <? String.length path)%nat
              then PathFixed r +:+ path
              else PathFixed r in
  {| PathFixed := PathFixed r;
     Routers := Routers r ++ [ {| Path := path; Methods := methods |} ] |}.

Definition GetAllRouters (r : RegisterRouters) : list RegisterRouter :=
  Routers r.

Definition GetRouters (path : string) (r : RegisterRouters)
    : list RegisterRouter :=
  fold_left
    (fun routers router =>
       if String.eqb (Path router) path then routers ++ [router] else routers)
    (Routers r) [].

Definition GetRoutersFx (r : RegisterRouters) : list RegisterRouter :=
  fold_left
    (fun routers router =>
       if Contains (Path router) (PathFixed r)
       then routers ++ [router] else routers)
    (Routers r) [].

Definition SetPathFixed (path : string) (r : RegisterRouters)
    : RegisterRouters :=
  {| PathFixed := path; Routers := Routers r |}.

End Builder.

Arguments Path {H} _.
Arguments Methods {H} _.
Arguments PathFixed {H} _.
Arguments Routers {H} _.
Arguments mkRegisterRouter {H} _ _.
Arguments mkRegisterRouters {H} _ _.
Arguments NewRouters {H}.
Arguments AddRouter {H} _ _ _.
Arguments AddRouterFx {H} _ _ _.
Arguments GetAllRouters {H} _.
Arguments GetRouters {H} _ _.
Arguments GetRoutersFx {H} _.
Arguments SetPathFixed {H} _ _.

(** ** The Echo engine, as far as registration uses it

    The engine is the Echo library, outside this package.  Registration
    reaches it through five kinds of call: [e.Group(prefix)], [e.Use(m)] on
    the engine or on a group, and the nine route methods [e.GET(path, h)],
    [e.POST(path, h)], ... on the engine or on a group.  The engine is kept
    abstract: [E] is its whole state (groups, middleware chains and route
    table), [G] a reference to one of its groups, and each call is a
    function on that state.  A call is taken to return: what the engine
    does with a route or a middleware it is given is not part of this
    package. *)

Inductive verb : Type :=
| GET | POST | PUT | DELETE | PATCH | HEAD | CONNECT | OPTIONS | TRACE.

Class EngineAdapter (H Mw E G : Type) : Type := {
  Echo_Group : string -> E -> G * E;
  Echo_Use : Mw -> E -> E;
  Group_Use : G -> Mw -> E -> E;
  Echo_Add : verb -> string -> H -> E -> E;
  Group_Add : G -> verb -> string -> H -> E -> E
}.

(** An engine that only records the calls it receives, in order; a group is
    referred to by the position of the call that created it. *)
Inductive call (H Mw : Type) : Type :=
| CallGroup (prefix : string)
| CallEchoUse (m : Mw)
| CallGroupUse (g : nat) (m : Mw)
| CallEchoAdd (v : verb) (path : string) (h : H)
| CallGroupAdd (g : nat) (v : verb) (path : string) (h : H).

Arguments CallGroup {H Mw} prefix.
Arguments CallEchoUse {H Mw} m.
Arguments CallGroupUse {H Mw} g m.
Arguments CallEchoAdd {H Mw} v path h.
Arguments CallGroupAdd {H Mw} g v path h.

#[export] Instance recording_engine (H Mw : Type)
  : EngineAdapter H Mw (list (call H Mw)) nat := {|
  Echo_Group := fun prefix tr => (length tr, tr ++ [CallGroup prefix]);
  Echo_Use := fun m tr => tr ++ [CallEchoUse m];
  Group_Use := fun g m tr => tr ++ [CallGroupUse g m];
  Echo_Add := fun v path h tr => tr ++ [CallEchoAdd v path h];
  Group_Add := fun g v path h tr => tr ++ [CallGroupAdd g v path h]
|}.

(** The method names of package net/http. *)
Definition http_MethodGet : string := "GET".
Definition http_MethodPost : string := "POST".
Definition http_MethodPut : string := "PUT".
Definition http_MethodDelete : string := "DELETE".
Definition http_MethodPatch : string := "PATCH".
Definition http_MethodHead : string := "HEAD".
Definition http_MethodConnect : string := "CONNECT".
Definition http_MethodOptions : string := "OPTIONS".
Definition http_MethodTrace : string := "TRACE".

(** ** Server: registration *)

Section Registrar.

Context {H Mw E G : Type} {engine_adapter : EngineAdapter H Mw E G}.

(** The order in which [range] visits the keys of a map is not specified and
    may change from one loop to the next: [range_order i m] is the order
    used by the loop over the methods of the [i]-th entry. *)
Variable range_order : nat -> gmap string H -> list (string * H).

(** The memory a call works on: the engine [s.echo] and the builders that
    [*RegisterRouters] pointers refer to.  [None] is the nil pointer. *)
Record World : Type := mkWorld {
  echo : E;
  heap : gmap nat (RegisterRouters H)
}.

Definition ptr : Type := option nat.

(** The dynamic type of the [engine any] argument. *)
Inductive engine_ref : Type :=
| EchoRef                (* *echo.Echo *)
| GroupRef (g : G)       (* *echo.Group *)
| OtherRef.              (* nil, or any other type *)

(** State and error monad: a non-nil [error] and a panic both end the call. *)
Definition M (A : Type) : Type := World -> outcome A * World.

Definition ret {A : Type} (a : A) : M A := fun w => (Ok a, w).

Definition bind {A B : Type} (c : M A) (f : A -> M B) : M B :=
  fun w =>
    match c w with
    | (Ok a, w') => f a w'
    | (Err e, w') => (Err e, w')
    | (Panic msg, w') => (Panic msg, w')
    end.

Definition throw {A : Type} (e : error) : M A := fun w => (Err e, w).

Definition lift {A : Type} (o : outcome A) : M A := fun w => (o, w).

Definition on_echo (f : E -> E) : M unit :=
  fun w => (Ok tt, {| echo := f (echo w); heap := heap w |}).

Definition call_Group (prefix : string) : M G :=
  fun w =>
    let (g, e) := Echo_Group prefix (echo w) in
    (Ok g, {| echo := e; heap := heap w |}).

(** Reading through a pointer.  A non-nil Go pointer always refers to an
    allocated struct; the last case is there for totality only. *)
Definition deref (p : ptr) : M (RegisterRouters H) :=
  fun w =>
    match p with
    | None => (Panic "nil pointer dereference", w)
    | Some l =>
        match heap w !! l with
        | Some r => (Ok r, w)
        | None => (Panic "unallocated pointer", w)
        end
    end.

Notation "x <- c ;; k" := (bind c (fun x => k))
  (at level 100, c at next level, right associativity).
Notation "c ;;; k" := (bind c (fun _ => k))
  (at level 100, right associativity).

Definition Server_registerMethod (engine : engine_ref)
    (method path : string) (handler : H) : M unit :=
  match engine with
  | GroupRef e =>
      if String.eqb method http_MethodGet then
        on_echo (Group_Add e GET path handler)
      else if String.eqb method http_MethodPost then
        on_echo (Group_Add e POST path handler)
      else if String.eqb method http_MethodPut then
        on_echo (Group_Add e PUT path handler)
      else if String.eqb method http_MethodDelete then
        on_echo (Group_Add e DELETE path handler)
      else if String.eqb method http_MethodPatch then
        on_echo (Group_Add e PATCH path handler)
      else if String.eqb method http_MethodHead then
        on_echo (Group_Add e HEAD path handler)
      else if String.eqb method http_MethodConnect then
        on_echo (Group_Add e CONNECT path handler)
      else if String.eqb method http_MethodOptions then
        on_echo (Group_Add e OPTIONS path handler)
      else if String.eqb method http_MethodTrace then
        on_echo (Group_Add e TRACE path handler)
      else throw (UnsupportedMethod method)
  | EchoRef =>
      if String.eqb method http_MethodGet then
        on_echo (Echo_Add GET path handler)
      else if String.eqb method http_MethodPost then
        on_echo (Echo_Add POST path handler)
      else if String.eqb method http_MethodPut then
        on_echo (Echo_Add PUT path handler)
      else if String.eqb method http_MethodDelete then
        on_echo (Echo_Add DELETE path handler)
      else if String.eqb method http_MethodPatch then
        on_echo (Echo_Add PATCH path handler)
      else if String.eqb method http_MethodHead then
        on_echo (Echo_Add HEAD path handler)
      else if String.eqb method http_MethodConnect then
        on_echo (Echo_Add CONNECT path handler)
      else if String.eqb method http_MethodOptions then
        on_echo (Echo_Add OPTIONS path handler)
      else if String.eqb method http_MethodTrace then
        on_echo (Echo_Add TRACE path handler)
      else throw (UnsupportedMethod method)
  | OtherRef => throw EngineTypeNotSupported
  end.

(** The first loop of [registerRouters]: one [Use] per middleware. *)
Fixpoint use_loop (engine : engine_ref) (middlewares : list Mw) : M unit :=
  match middlewares with
  | [] => ret tt
  | middleware :: rest =>
      match engine with
      | GroupRef e => on_echo (Group_Use e middleware)
      | EchoRef => on_echo (Echo_Use middleware)
      | OtherRef => ret tt
      end ;;;
      use_loop engine rest
  end.

(** The inner loop, over the methods of one entry; an error returned by
    [registerMethod] is returned at once. *)
Fixpoint methods_loop (engine : engine_ref) (path : string)
    (methods : list (string * H)) : M unit :=
  match methods with
  | [] => ret tt
  | (method, handler) :: rest =>
      Server_registerMethod engine method path handler ;;;
      methods_loop engine path rest
  end.

(** The outer loop, over the entries; [i] counts the entries visited. *)
Fixpoint routers_loop (engine : engine_ref) (i : nat)
    (routers : list (RegisterRouter H)) : M unit :=
  match routers with
  | [] => ret tt
  | methods :: rest =>
      methods_loop engine (Path methods) (range_order i (Methods methods)) ;;;
      routers_loop engine (S i) rest
  end.

Definition Server_registerRouters (engine : engine_ref) (routers : ptr)
    (middlewares : list Mw) : M unit :=
  use_loop engine middlewares ;;;
  r <- deref routers ;;
  routers_loop engine 0 (GetAllRouters r).

Definition Server_RegisterRouters (group : Kind) (routers : ptr)
    (middlewares : list Mw) : M unit :=
  if Z.eqb group ROOT then
    Server_registerRouters EchoRef routers middlewares
  else if existsb (Z.eqb group) [V1; V2; V3; DEV; API; DOCS] then
    name <- lift (Kind_String group) ;;
    grp <- call_Group name ;;
    Server_registerRouters (GroupRef grp) routers middlewares
  else throw InvalidGroup.

(** *** What a registration amounts to, call by call *)

(** The fixed set of method names and the route method each one selects. *)
Definition http_methods : list string :=
  [http_MethodGet; http_MethodPost; http_MethodPut; http_MethodDelete;
   http_MethodPatch; http_MethodHead; http_MethodConnect;
   http_MethodOptions; http_MethodTrace].

Definition verb_of_method (method : string) : option verb :=
  if String.eqb method "GET" then Some GET
  else if String.eqb method "POST" then Some POST
  else if String.eqb method "PUT" then Some PUT
  else if String.eqb method "DELETE" then Some DELETE
  else if String.eqb method "PATCH" then Some PATCH
  else if String.eqb method "HEAD" then Some HEAD
  else if String.eqb method "CONNECT" then Some CONNECT
  else if String.eqb method "OPTIONS" then Some OPTIONS
  else if String.eqb method "TRACE" then Some TRACE
  else None.

(** One middleware applied to a scope, one route bound on a scope. *)
Definition use_on (engine : engine_ref) (m : Mw) (e : E) : E :=
  match engine with
  | GroupRef g => Group_Use g m e
  | EchoRef => Echo_Use m e
  | OtherRef => e
  end.

Definition add_on (engine : engine_ref) (v : verb) (path : string)
    (h : H) (e : E) : E :=
  match engine with
  | GroupRef g => Group_Add g v path h e
  | EchoRef => Echo_Add v path h e
  | OtherRef => e
  end.

(** A binding is a method name, a path and a handler. *)
Definition binding : Type := string * string * H.

Definition bind_on (engine : engine_ref) (b : binding) (e : E) : E :=
  match verb_of_method b.1.1 with
  | Some v => add_on engine v b.1.2 b.2 e
  | None => e
  end.

Definition use_all (engine : engine_ref) (ms : list Mw) (e : E) : E :=
  fold_left (fun e m => use_on engine m e) ms e.

Definition bind_all (engine : engine_ref) (bs : list binding) (e : E) : E :=
  fold_left (fun e b => bind_on engine b e) bs e.

(** The bindings of a list of entries in the order the loops reach them. *)
Fixpoint schedule (i : nat) (routers : list (RegisterRouter H))
    : list binding :=
  match routers with
  | [] => []
  | r :: rest =>
      map (fun mh : string * H => (mh.1, Path r, mh.2))
          (range_order i (Methods r))
      ++ schedule (S i) rest
  end.

(** The scope a valid group resolves to, and the engine once it exists. *)
Definition resolve_scope (group : Kind) (e : E) : engine_ref * E :=
  if Z.eqb group ROOT then (EchoRef, e)
  else
    let (g, e') := Echo_Group (nth (Z.to_nat group) Kind_names EmptyString) e in
    (GroupRef g, e').

(** [res] is the result of going through the bindings [bs] in the world [w]:
    the bindings before the first unsupported method name are made, in
    order, and nothing else; the run ends with the error for that name, or
    without error when every name is supported. *)
Definition stops_at (engine : engine_ref) (bs : list binding) (w : World)
    (res : outcome unit * World) : Prop :=
  exists pre post : list binding,
    bs = pre ++ post /\
    Forall (fun b : binding => In b.1.1 http_methods) pre /\
    res.2 = {| echo := bind_all engine pre (echo w); heap := heap w |} /\
    ((post = [] /\ res.1 = Ok tt) \/
     (exists method path handler post',
        post = (method, path, handler) :: post' /\
        ~ In method http_methods /\
        res.1 = Err (UnsupportedMethod method))).

(** A computation that leaves every builder in memory as it is. *)
Definition keeps_heap {A : Type} (c : M A) : Prop :=
  forall w : World, heap (c w).2 = heap w.

End Registrar.

Arguments World H E : clear implicits.
Arguments mkWorld {H E} _ _.
Arguments echo {H E} _.
Arguments heap {H E} _.
Arguments engine_ref G : clear implicits.
Arguments EchoRef {G}.
Arguments GroupRef {G} g.
Arguments OtherRef {G}.
Arguments binding H : clear implicits.
Arguments M H E A : clear implicits.

(** ** ServerParams and the options of NewServer

    An option is a Go function that receives the pointer to the parameters
    being built, may update them and returns an error or nil; it is a
    function from the parameters to the updated parameters and the error.
    [L] stands for [slog.SugaredLogger] and [Er] for the values of type
    [error] an option can return. *)

Section Params.

Variable L : Type.
Variable Er : Type.

Record ServerParams : Type := mkServerParams {
  Port : string;
  Host : string;
  Slog : option L      (* a pointer; [None] is nil *)
}.

Definition Options : Type := ServerParams -> ServerParams * option Er.

(** The loop of [newServerParams], from the parameters [s] on. *)
Fixpoint apply_options (opts : list Options) (s : ServerParams)
    : ServerParams + Er :=
  match opts with
  | [] => inl s
  | opt :: rest =>
      let (s', err) := opt s in
      match err with
      | Some e => inr e
      | None => apply_options rest s'
      end
  end.

Definition newServerParams (opts : list Options) : ServerParams + Er :=
  apply_options opts
    {| Port := EmptyString; Host := EmptyString; Slog := None |}.

Definition WithPort (port : string) : Options :=
  fun s => ({| Port := port; Host := Host s; Slog := Slog s |}, None).

Definition WithHost (host : string) : Options :=
  fun s => ({| Port := Port s; Host := host; Slog := Slog s |}, None).

Definition WithSlog (slog : option L) : Options :=
  fun s => ({| Port := Port s; Host := Host s; Slog := slog |}, None).

Definition GetPort (s : ServerParams) : string := Port s.

Definition GetHost (s : ServerParams) : string := Host s.

Definition SetPort (port : string) (s : ServerParams) : ServerParams :=
  {| Port := port; Host := Host s; Slog := Slog s |}.

Definition SetHost (host : string) (s : ServerParams) : ServerParams :=
  {| Port := Port s; Host := host; Slog := Slog s |}.

Definition GetSlog (s : ServerParams) : option L := Slog s.

Definition SetSlog (slog : option L) (s : ServerParams) : ServerParams :=
  {| Port := Port s; Host := Host s; Slog := slog |}.

(** *** Server: construction and listening address

    [echo.New()] and the assignment [e.HideBanner = true] belong to the
    engine: [Echo_New] is the fresh engine and [Echo_HideBanner] the effect
    of the assignment on it. *)

Variable E : Type.
Variable Echo_New : E.
Variable Echo_HideBanner : bool -> E -> E.

Record Server : Type := mkServer {
  Server_port : string;
  Server_host : string;
  Server_echo : E;
  Server_params : ServerParams
}.

Definition NewServer (opts : list Options) : Server + Er :=
  match newServerParams opts with
  | inr err => inr err
  | inl params =>
      let e := Echo_New in
      let e := Echo_HideBanner true e in
      inl {| Server_echo := e;
             Server_port := GetPort params;
             Server_host := GetHost params;
             Server_params := params |}
  end.

(** The address [Start] hands to [s.echo.Start], which then runs in a
    goroutine of its own. *)
Definition Server_Start_host (s : Server) : string :=
  let host := Server_host s +:+ ":" +:+ Server_port s in
  if (String.length (Server_port s) =? 0)%nat then Server_host s else host.

End Params.

Arguments Port {L} _.
Arguments Host {L} _.
Arguments Slog {L} _.
Arguments mkServerParams {L} _ _ _.
Arguments Options L Er : clear implicits.
Arguments apply_options {L Er} opts s.
Arguments newServerParams {L Er} opts.
Arguments WithPort {L Er} port.
Arguments WithHost {L Er} host.
Arguments WithSlog {L Er} slog.
Arguments GetPort {L} s.
Arguments GetHost {L} s.
Arguments SetPort {L} port s.
Arguments SetHost {L} host s.
Arguments GetSlog {L} s.
Arguments SetSlog {L} slog s.
Arguments Server_port {L E} _.
Arguments Server_host {L E} _.
Arguments Server_echo {L E} _.
Arguments Server_params {L E} _.
Arguments mkServer {L E} _ _ _ _.
Arguments NewServer {L Er E} Echo_New Echo_HideBanner opts.
Arguments Server_Start_host {L E} s.

(** ** Notions used to state the properties *)

(** [sub] occurs somewhere in [s]. *)
Definition is_substring (sub s : string) : Prop :=
  exists pre post : string, s = pre +:+ sub +:+ post.

(** [l'] is [l] restricted to the elements that satisfy [P], in the order
    and with the multiplicity of [l]. *)
Inductive Selected {A : Type} (P : A -> Prop) : list A -> list A -> Prop :=
| Selected_nil : Selected P [] []
| Selected_keep x l l' : P x -> Selected P l l' -> Selected P (x :: l) (x :: l')
| Selected_skip x l l' : ~ P x -> Selected P l l' -> Selected P (x :: l) l'.

(** The encodings of the white-space runes, and the strings made of them. *)
Definition bytes (l : list nat) : string :=
  string_of_list_ascii (map ascii_of_nat l).

Definition space_runes : list string :=
  map bytes
    [ [9]; [10]; [11]; [12]; [13]; [32];
      [194; 133]; [194; 160];
      [225; 154; 128];
      [226; 128; 128]; [226; 128; 129]; [226; 128; 130]; [226; 128; 131];
      [226; 128; 132]; [226; 128; 133]; [226; 128; 134]; [226; 128; 135];
      [226; 128; 136]; [226; 128; 137]; [226; 128; 138];
      [226; 128; 168]; [226; 128; 169]; [226; 128; 175];
      [226; 129; 159];
      [227; 128; 128] ]%nat.

Inductive OnlySpace : string -> Prop :=
| OnlySpace_empty : OnlySpace EmptyString
| OnlySpace_rune w s : In w space_runes -> OnlySpace s -> OnlySpace (w +:+ s).

(** The calls a caller can make on a builder. *)
Inductive builder_call (H : Type) : Type :=
| DoAddRouter (path : string) (methods : gmap string H)
| DoAddRouterFx (params : string) (methods : gmap string H)
| DoSetPathFixed (path : string).

Arguments DoAddRouter {H} path methods.
Arguments DoAddRouterFx {H} params methods.
Arguments DoSetPathFixed {H} path.

Definition run_call {H : Type} (r : RegisterRouters H) (c : builder_call H)
    : RegisterRouters H :=
  match c with
  | DoAddRouter path methods => AddRouter path methods r
  | DoAddRouterFx params methods => AddRouterFx params methods r
  | DoSetPathFixed path => SetPathFixed path r
  end.

Definition run_calls {H : Type} (cs : list (builder_call H))
    (r : RegisterRouters H) : RegisterRouters H :=
  fold_left run_call cs r.

(** The calls the recording engine logs when a valid group is resolved,
    when a middleware is applied to a scope and when a binding is made on
    it; [n] is the number of calls logged before the registration. *)
Definition scope_of (group : Kind) (n : nat) : engine_ref nat :=
  if Z.eqb group ROOT then EchoRef else GroupRef n.

Definition group_call {H Mw : Type} (group : Kind) : list (call H Mw) :=
  if Z.eqb group ROOT then []
  else match Kind_String group with
       | Ok name => [CallGroup name]
       | _ => []
       end.

Definition use_call {H Mw : Type} (engine : engine_ref nat) (m : Mw)
    : list (call H Mw) :=
  match engine with
  | EchoRef => [CallEchoUse m]
  | GroupRef g => [CallGroupUse g m]
  | OtherRef => []
  end.

Definition bind_call {H Mw : Type} (engine : engine_ref nat) (b : binding H)
    : list (call H Mw) :=
  match verb_of_method b.1.1, engine with
  | Some v, EchoRef => [CallEchoAdd v b.1.2 b.2]
  | Some v, GroupRef g => [CallGroupAdd g v b.1.2 b.2]
  | _, _ => []
  end.

(** ** A concrete registration

    The order of [range] taken to be the order of [map_to_list], handlers
    and middlewares numbered, and a builder with the prefix "/api", a GET
    entry added with [AddRouterFx] and an entry whose only method name,
    FETCH, is not an HTTP method of the fixed set. *)

Definition map_order {H : Type} : nat -> gmap string H -> list (string * H) :=
  fun _ m => map_to_list m.

Definition example_spec : RegisterRouters nat :=
  AddRouter "/bad" {[ "FETCH"%string := 3%nat ]}
    (AddRouterFx "/x" {[ "GET"%string := 1%nat ]}
       (SetPathFixed "/api" NewRouters)).

Definition example_world : World nat (list (call nat nat)) :=
  {| echo := []; heap := {[ 0%nat := example_spec ]} |}.

(** A second order of [range], the reverse of the first, and a builder
    whose only entry has two supported method names. *)
Definition rev_order {H : Type} : nat -> gmap string H -> list (string * H) :=
  fun _ m => rev (map_to_list m).

Definition example_get_post : RegisterRouters nat :=
  AddRouterFx "/x" {[ "GET"%string := 1%nat; "POST"%string := 2%nat ]}
    (SetPathFixed "/api" NewRouters).

Definition example_world_ok : World nat (list (call nat nat)) :=
  {| echo := []; heap := {[ 0%nat := example_get_post ]} |}.

(** * Properties *)

(** ** Kind.String *)

Example Kind_String_V1 : Kind_String V1 = Ok "v1"%string.
Proof. reflexivity. Qed.

Example Kind_String_DOCS : Kind_String DOCS = Ok "docs"%string.
Proof. reflexivity. Qed.

Lemma Kind_valid_range (k : Kind) : Kind_valid k = true <-> 0 <= k <= 6.
Proof.
  unfold Kind_valid, ROOT, DOCS.
  rewrite andb_true_iff, !Z.leb_le. reflexivity.
Qed.

Lemma Kind_valid_cases (k : Kind) :
  Kind_valid k = true ->
  k = ROOT \/ k = V1 \/ k = V2 \/ k = V3 \/ k = DEV \/ k = API \/ k = DOCS.
Proof.
  rewrite Kind_valid_range. unfold ROOT, V1, V2, V3, DEV, API, DOCS. lia.
Qed.

Lemma Kind_String_invalid (k : Kind) :
  Kind_valid k = false -> Kind_String k = Panic "index out of range".
Proof.
  intros Hk. unfold Kind_String. simpl length.
  unfold Kind_valid, ROOT, DOCS in Hk.
  apply andb_false_iff in Hk. rewrite !Z.leb_gt in Hk.
  destruct (Z.leb_spec 0 k), (Z.ltb_spec k (Z.of_nat 7)); simpl;
    first [reflexivity | lia].
Qed.

(** C1, as the code has it.  For every value of the enumeration, root
    included, [String] returns a non-empty name that no other value has;
    the name of root is "root", not the empty string.  For every value
    outside the enumeration [String] panics with an index out of range: it
    returns no name and no error. *)
Theorem Kind_String_names :
  Kind_String ROOT = Ok "root"%string /\
  forall k : Kind,
    if Kind_valid k
    then exists s : string,
           Kind_String k = Ok s /\ s <> EmptyString /\
           (forall k' : Kind, Kind_String k' = Ok s -> k' = k)
    else Kind_String k = Panic "index out of range".
Proof.
  split; [reflexivity |].
  intros k. destruct (Kind_valid k) eqn:Hk; [| now apply Kind_String_invalid].
  assert (Hinj : forall k' s, Kind_String k = Ok s -> Kind_String k' = Ok s -> k' = k).
  { intros k' s Hs Hs'.
    destruct (Kind_valid k') eqn:Hk'.
    - apply Kind_valid_cases in Hk, Hk'.
      destruct Hk as [-> | [-> | [-> | [-> | [-> | [-> | ->]]]]]];
        injection Hs as <-;
        destruct Hk' as [-> | [-> | [-> | [-> | [-> | [-> | ->]]]]]];
        first [reflexivity | discriminate Hs'].
    - rewrite (Kind_String_invalid _ Hk') in Hs'. discriminate Hs'. }
  apply Kind_valid_cases in Hk as Hc.
  destruct Hc as [-> | [-> | [-> | [-> | [-> | [-> | ->]]]]]];
    eexists; (split; [reflexivity |]);
    (split; [discriminate | intros k' Hk2; now apply (Hinj k' _ eq_refl)]).
Qed.

(** C1 as the specification states it fails: the name of root is not the
    empty string, and an out-of-range value makes [String] panic instead of
    failing with an invalid-group error. *)
Lemma Kind_String_root_and_out_of_range :
  Kind_String ROOT <> Ok EmptyString /\
  Kind_String 999 <> Err InvalidGroup /\
  Kind_String 999 = Panic "index out of range" /\
  Kind_String (-1) = Panic "index out of range".
Proof. repeat split; discriminate. Qed.

(** ** Strings *)

Lemma append_cons (c : ascii) (s t : string) :
  String c s +:+ t = String c (s +:+ t).
Proof. reflexivity. Qed.

Lemma append_empty_l (t : string) : EmptyString +:+ t = t.
Proof. reflexivity. Qed.

Lemma append_empty_r (s : string) : s +:+ EmptyString = s.
Proof.
  induction s as [| c s IH]; [reflexivity |].
  now rewrite append_cons, IH.
Qed.

Lemma append_assoc (s1 s2 s3 : string) :
  (s1 +:+ s2) +:+ s3 = s1 +:+ s2 +:+ s3.
Proof.
  induction s1 as [| c s1 IH]; [reflexivity |].
  now rewrite !append_cons, IH.
Qed.

Lemma HasPrefix_spec (s prefix : string) :
  HasPrefix s prefix = true <-> exists post : string, s = prefix +:+ post.
Proof.
  revert s. induction prefix as [| a p IH]; intros s.
  - destruct s; simpl; split; trivial; intros _; eexists; reflexivity.
  - destruct s as [| b s]; simpl.
    + split; [discriminate |].
      intros [post Hp]. rewrite append_cons in Hp. discriminate Hp.
    + destruct (Ascii.eqb_spec a b) as [-> | Hab].
      * rewrite IH. split; intros [post Hp]; exists post.
        -- now rewrite append_cons, Hp.
        -- rewrite append_cons in Hp. now injection Hp.
      * split; [discriminate |].
        intros [post Hp]. rewrite append_cons in Hp.
        injection Hp as Hb _. now symmetry in Hb.
Qed.

Lemma Contains_spec (s substr : string) :
  Contains s substr = true <-> is_substring substr s.
Proof.
  unfold is_substring. induction s as [| c s IH].
  - change (Contains "" substr) with (HasPrefix "" substr || false).
    rewrite orb_false_r, HasPrefix_spec. split.
    + intros [post Hp]. exists EmptyString, post. exact Hp.
    + intros [pre [post Hp]]. destruct pre as [| c pre].
      * now exists post.
      * rewrite append_cons in Hp. discriminate Hp.
  - change (Contains (String c s) substr)
      with (HasPrefix (String c s) substr || Contains s substr).
    rewrite orb_true_iff, IH, HasPrefix_spec. split.
    + intros [[post Hp] | [pre [post Hp]]].
      * exists EmptyString, post. exact Hp.
      * exists (String c pre), post. now rewrite append_cons, Hp.
    + intros [pre [post Hp]]. destruct pre as [| c' pre].
      * left. now exists post.
      * right. rewrite append_cons in Hp. injection Hp as _ Hp.
        now exists pre, post.
Qed.

Lemma TrimLeftSpace_rune (w s : string) :
  In w space_runes -> TrimLeftSpace (w +:+ s) = TrimLeftSpace s.
Proof.
  intros Hw. simpl in Hw.
  repeat (destruct Hw as [<- | Hw]; [reflexivity |]).
  contradiction.
Qed.

Lemma OnlySpace_TrimLeftSpace (s : string) :
  OnlySpace s -> TrimLeftSpace s = EmptyString.
Proof.
  induction 1 as [| w s Hw _ IH]; [reflexivity |].
  now rewrite TrimLeftSpace_rune.
Qed.

(** A string made of white space only is trimmed to the empty string. *)
Lemma OnlySpace_TrimSpace (s : string) :
  OnlySpace s -> TrimSpace s = EmptyString.
Proof.
  intros Hs. unfold TrimSpace. now rewrite OnlySpace_TrimLeftSpace.
Qed.

(** Conversely, a string trimmed to the empty string is made of white-space
    runes only. *)

Lemma ascii_of_code (c : ascii) (n : nat) :
  nat_of_ascii c = n -> c = ascii_of_nat n.
Proof. intros <-. symmetry. apply ascii_nat_embedding. Qed.

Ltac rune_cases :=
  repeat match goal with
         | Hc : _ \/ _ |- _ => destruct Hc as [Hc | Hc]
         | Hc : _ /\ _ |- _ => destruct Hc
         | Hc : nat_of_ascii ?c = _ |- _ => apply ascii_of_code in Hc; subst c
         end;
  vm_compute; tauto.

Lemma asciiSpace_rune (c : ascii) :
  asciiSpace c = true -> In (String c EmptyString) space_runes.
Proof.
  unfold asciiSpace. intros Hs.
  assert (Hc : (nat_of_ascii c = 9 \/ nat_of_ascii c = 10 \/ nat_of_ascii c = 11
                \/ nat_of_ascii c = 12 \/ nat_of_ascii c = 13
                \/ nat_of_ascii c = 32)%nat).
  { apply orb_true_iff in Hs.
    rewrite andb_true_iff, !Nat.leb_le, Nat.eqb_eq in Hs. lia. }
  clear Hs. rune_cases.
Qed.

Lemma isSpace2_rune (c1 c2 : ascii) :
  isSpace2 c1 c2 = true ->
  In (String c1 (String c2 EmptyString)) space_runes.
Proof.
  unfold isSpace2. intros Hs.
  assert (Hc : (nat_of_ascii c1 = 194
                /\ (nat_of_ascii c2 = 133 \/ nat_of_ascii c2 = 160))%nat).
  { rewrite andb_true_iff, orb_true_iff, !Nat.eqb_eq in Hs. exact Hs. }
  clear Hs. rune_cases.
Qed.

Lemma isSpace3_rune (c1 c2 c3 : ascii) :
  isSpace3 c1 c2 c3 = true ->
  In (String c1 (String c2 (String c3 EmptyString))) space_runes.
Proof.
  unfold isSpace3. intros Hs.
  repeat rewrite ?orb_true_iff, ?andb_true_iff, ?Nat.leb_le, ?Nat.eqb_eq in Hs.
  assert (Hc :
    ((nat_of_ascii c1 = 225 /\ nat_of_ascii c2 = 154 /\ nat_of_ascii c3 = 128)
     \/ (nat_of_ascii c1 = 226 /\ nat_of_ascii c2 = 128
         /\ (nat_of_ascii c3 = 128 \/ nat_of_ascii c3 = 129
             \/ nat_of_ascii c3 = 130 \/ nat_of_ascii c3 = 131
             \/ nat_of_ascii c3 = 132 \/ nat_of_ascii c3 = 133
             \/ nat_of_ascii c3 = 134 \/ nat_of_ascii c3 = 135
             \/ nat_of_ascii c3 = 136 \/ nat_of_ascii c3 = 137
             \/ nat_of_ascii c3 = 138 \/ nat_of_ascii c3 = 168
             \/ nat_of_ascii c3 = 169 \/ nat_of_ascii c3 = 175))
     \/ (nat_of_ascii c1 = 226 /\ nat_of_ascii c2 = 129 /\ nat_of_ascii c3 = 159)
     \/ (nat_of_ascii c1 = 227 /\ nat_of_ascii c2 = 128
         /\ nat_of_ascii c3 = 128))%nat) by lia.
  clear Hs. rune_cases.
Qed.

Lemma OnlySpace_app (s t : string) :
  OnlySpace s -> OnlySpace t -> OnlySpace (s +:+ t).
Proof.
  induction 1 as [| w s Hw _ IH]; intros Ht; [exact Ht |].
  rewrite append_assoc. apply OnlySpace_rune; [exact Hw | now apply IH].
Qed.

Lemma OnlySpace_one (w : string) : In w space_runes -> OnlySpace w.
Proof.
  intros Hw. rewrite <- (append_empty_r w).
  apply OnlySpace_rune; [exact Hw | constructor].
Qed.

Lemma TrimLeftSpace_decomp (s : string) :
  exists p : string, OnlySpace p /\ s = p +:+ TrimLeftSpace s.
Proof.
  assert (Hn : forall n s, (String.length s <= n)%nat ->
               exists p : string, OnlySpace p /\ s = p +:+ TrimLeftSpace s).
  { clear s. induction n as [| n IH]; intros s Hlen.
    - destruct s; [| simpl in Hlen; lia].
      exists EmptyString. split; [constructor | reflexivity].
    - destruct s as [| c1 r1];
        [exists EmptyString; split; [constructor | reflexivity] |].
      simpl in Hlen. simpl TrimLeftSpace.
      destruct (asciiSpace c1) eqn:H1.
      { destruct (IH r1) as [p [Hp Hr]]; [lia |].
        exists (String c1 EmptyString +:+ p). split.
        - apply OnlySpace_rune; [now apply asciiSpace_rune | exact Hp].
        - rewrite append_assoc, append_cons, append_empty_l.
          now rewrite <- Hr. }
      destruct r1 as [| c2 r2];
        [exists EmptyString; split; [constructor | reflexivity] |].
      simpl in Hlen.
      destruct (isSpace2 c1 c2) eqn:H2.
      { destruct (IH r2) as [p [Hp Hr]]; [lia |].
        exists (String c1 (String c2 EmptyString) +:+ p). split.
        - apply OnlySpace_rune; [now apply isSpace2_rune | exact Hp].
        - rewrite append_assoc, !append_cons, append_empty_l.
          now rewrite <- Hr. }
      destruct r2 as [| c3 r3];
        [exists EmptyString; split; [constructor | reflexivity] |].
      simpl in Hlen.
      destruct (isSpace3 c1 c2 c3) eqn:H3.
      { destruct (IH r3) as [p [Hp Hr]]; [lia |].
        exists (String c1 (String c2 (String c3 EmptyString)) +:+ p). split.
        - apply OnlySpace_rune; [now apply isSpace3_rune | exact Hp].
        - rewrite append_assoc, !append_cons, append_empty_l.
          now rewrite <- Hr. }
      exists EmptyString. split; [constructor | reflexivity]. }
  apply (Hn (String.length s)). lia.
Qed.

Lemma string_of_list_ascii_app (l1 l2 : list ascii) :
  string_of_list_ascii (l1 ++ l2)
  = string_of_list_ascii l1 +:+ string_of_list_ascii l2.
Proof.
  induction l1 as [| c l1 IH]; [reflexivity |].
  simpl. now rewrite append_cons, IH.
Qed.

Lemma trimLeftSpaceRev_decomp (l : list ascii) :
  exists p : list ascii,
    l = p ++ trimLeftSpaceRev l /\ OnlySpace (string_of_list_ascii (rev p)).
Proof.
  assert (Hn : forall n l, (length l <= n)%nat ->
               exists p : list ascii,
                 l = p ++ trimLeftSpaceRev l
                 /\ OnlySpace (string_of_list_ascii (rev p))).
  { clear l. induction n as [| n IH]; intros l Hlen.
    - destruct l; [| simpl in Hlen; lia].
      exists []. split; [reflexivity | constructor].
    - destruct l as [| c1 r1]; [exists []; split; [reflexivity | constructor] |].
      simpl in Hlen. simpl trimLeftSpaceRev.
      destruct (asciiSpace c1) eqn:H1.
      { destruct (IH r1) as [p [Hr Hp]]; [lia |].
        exists (c1 :: p). split; [simpl; now rewrite <- Hr |].
        simpl rev. rewrite string_of_list_ascii_app.
        apply OnlySpace_app; [exact Hp |].
        apply OnlySpace_one. now apply asciiSpace_rune. }
      destruct r1 as [| c2 r2]; [exists []; split; [reflexivity | constructor] |].
      simpl in Hlen.
      destruct (isSpace2 c2 c1) eqn:H2.
      { destruct (IH r2) as [p [Hr Hp]]; [lia |].
        exists (c1 :: c2 :: p). split; [simpl; now rewrite <- Hr |].
        simpl rev. rewrite <- app_assoc, string_of_list_ascii_app.
        apply OnlySpace_app; [exact Hp |].
        apply OnlySpace_one. now apply isSpace2_rune. }
      destruct r2 as [| c3 r3]; [exists []; split; [reflexivity | constructor] |].
      simpl in Hlen.
      destruct (isSpace3 c3 c2 c1) eqn:H3.
      { destruct (IH r3) as [p [Hr Hp]]; [lia |].
        exists (c1 :: c2 :: c3 :: p). split; [simpl; now rewrite <- Hr |].
        simpl rev. rewrite <- !app_assoc, string_of_list_ascii_app.
        apply OnlySpace_app; [exact Hp |].
        apply OnlySpace_one. now apply isSpace3_rune. }
      exists []. split; [reflexivity | constructor]. }
  apply (Hn (length l)). lia.
Qed.

Lemma TrimRightSpace_empty_OnlySpace (t : string) :
  TrimRightSpace t = EmptyString -> OnlySpace t.
Proof.
  unfold TrimRightSpace. intros Ht.
  destruct (trimLeftSpaceRev_decomp (rev (list_ascii_of_string t)))
    as [p [Hl Hp]].
  destruct (trimLeftSpaceRev (rev (list_ascii_of_string t))) as [| c k] eqn:Hk.
  - rewrite app_nil_r in Hl. subst p.
    now rewrite rev_involutive, string_of_list_ascii_of_string in Hp.
  - exfalso. simpl rev in Ht. rewrite string_of_list_ascii_app in Ht.
    destruct (string_of_list_ascii (rev k)); discriminate Ht.
Qed.

(** The strings that [TrimSpace] empties are the white-space-only strings. *)
Lemma TrimSpace_empty_iff (s : string) :
  TrimSpace s = EmptyString <-> OnlySpace s.
Proof.
  split; [| apply OnlySpace_TrimSpace].
  unfold TrimSpace. intros Ht.
  destruct (TrimLeftSpace_decomp s) as [p [Hp Hs]].
  rewrite Hs. apply OnlySpace_app; [exact Hp |].
  now apply TrimRightSpace_empty_OnlySpace.
Qed.

Example TrimSpace_both_sides : TrimSpace "  /x  " = "/x"%string.
Proof. reflexivity. Qed.

Example TrimSpace_inner_kept : TrimSpace " a b " = "a b"%string.
Proof. reflexivity. Qed.

Example TrimSpace_tabs_newlines :
  TrimSpace (bytes [9; 10; 47; 120; 13; 32]%nat) = "/x"%string.
Proof. reflexivity. Qed.

Example TrimSpace_unicode :
  TrimSpace (bytes [226; 128; 168; 47; 120; 194; 160]%nat) = "/x"%string.
Proof. reflexivity. Qed.

Example OnlySpace_three_blanks : OnlySpace "   ".
Proof.
  apply (OnlySpace_rune " " "  "); [simpl; tauto |].
  apply (OnlySpace_rune " " " "); [simpl; tauto |].
  apply (OnlySpace_rune " " ""); [simpl; tauto |].
  constructor.
Qed.

(** ** The builder *)

Section BuilderProperties.

Context {H : Type}.
Implicit Types (r : RegisterRouters H) (methods : gmap string H).

Lemma AddRouterFx_Routers r params methods :
  Routers (AddRouterFx params methods r) =
  Routers r ++
    [ {| Path := if (0 <? String.length (TrimSpace params))%nat
                 then PathFixed r +:+ TrimSpace params
                 else PathFixed r;
         Methods := methods |} ].
Proof. reflexivity. Qed.

(** C4.  [AddRouterFx] keeps the fixed prefix and appends one entry with the
    given methods; its path is the fixed prefix followed by the trimmed
    suffix when the suffix is not empty, and the fixed prefix alone when the
    suffix is empty.  After [SetPathFixed "/api"], the suffix "" gives the
    path "/api" and the suffix "/x" gives the path "/api/x". *)
Theorem AddRouterFx_path :
  forall r suffix methods,
    AddRouterFx suffix methods r =
      {| PathFixed := PathFixed r;
         Routers :=
           Routers r ++
             [ {| Path := if decide (suffix = EmptyString)
                          then PathFixed r
                          else PathFixed r +:+ TrimSpace suffix;
                  Methods := methods |} ] |}
    /\ AddRouterFx "" methods (SetPathFixed "/api" r) =
         {| PathFixed := "/api";
            Routers := Routers r ++ [ {| Path := "/api"; Methods := methods |} ] |}
    /\ AddRouterFx "/x" methods (SetPathFixed "/api" r) =
         {| PathFixed := "/api";
            Routers := Routers r ++ [ {| Path := "/api/x"; Methods := methods |} ] |}.
Proof.
  intros r suffix methods. split; [| split; reflexivity].
  unfold AddRouterFx. do 3 f_equal.
  destruct (decide (suffix = EmptyString)) as [-> | Hne]; [reflexivity |].
  destruct (TrimSpace suffix) as [| c t]; simpl; [| reflexivity].
  now rewrite append_empty_r.
Qed.

(** C9.  When the suffix is not empty but consists of white space only, the
    stored path is the fixed prefix exactly: the length test is made on the
    trimmed suffix. *)
Theorem AddRouterFx_only_space :
  forall r suffix methods,
    suffix <> EmptyString ->
    OnlySpace suffix ->
    AddRouterFx suffix methods r =
      {| PathFixed := PathFixed r;
         Routers := Routers r ++ [ {| Path := PathFixed r; Methods := methods |} ] |}.
Proof.
  intros r suffix methods _ Hs. unfold AddRouterFx.
  now rewrite (OnlySpace_TrimSpace _ Hs).
Qed.

Lemma run_calls_prefix (cs : list (builder_call H)) r :
  Routers r `prefix_of` Routers (run_calls cs r).
Proof.
  unfold run_calls. revert r.
  induction cs as [| c cs IH]; intros r; simpl; [reflexivity |].
  etransitivity; [| apply IH].
  destruct c; simpl; first [reflexivity | now apply prefix_app_r].
Qed.

(** C6.  [SetPathFixed] leaves the list of entries as it is, and so does any
    sequence of builder calls made afterwards for the entries that are
    already there: they stay at the head of the list, paths and methods
    unchanged. *)
Theorem SetPathFixed_keeps_entries :
  forall r path (later : list (builder_call H)),
    Routers (SetPathFixed path r) = Routers r /\
    PathFixed (SetPathFixed path r) = path /\
    Routers r `prefix_of` Routers (run_calls later (SetPathFixed path r)).
Proof.
  intros r path later. split; [reflexivity | split; [reflexivity |]].
  apply (run_calls_prefix later (SetPathFixed path r)).
Qed.

Lemma Selected_In {A : Type} (P : A -> Prop) (l l' : list A) :
  Selected P l l' -> forall x, In x l' <-> In x l /\ P x.
Proof.
  induction 1 as [| y l l' Hy _ IH | y l l' Hy _ IH]; intros x; simpl.
  - tauto.
  - rewrite IH. split.
    + intros [<- | [Hx Hp]]; tauto.
    + intros [[<- | Hx] Hp]; tauto.
  - rewrite IH. split.
    + tauto.
    + intros [[<- | Hx] Hp]; [contradiction | tauto].
Qed.

Lemma append_loop_Selected {A : Type} (P : A -> Prop) (f : A -> bool) :
  (forall x, f x = true <-> P x) ->
  forall (l acc : list A),
    exists l', fold_left (fun acc x => if f x then acc ++ [x] else acc) l acc
               = acc ++ l'
               /\ Selected P l l'.
Proof.
  intros Hf. induction l as [| x l IH]; intros acc; simpl.
  - exists []. split; [now rewrite app_nil_r | constructor].
  - destruct (f x) eqn:Hx.
    + destruct (IH (acc ++ [x])) as [l' [Heq Hsel]].
      exists (x :: l'). split.
      * now rewrite Heq, <- app_assoc.
      * constructor; [now apply Hf | exact Hsel].
    + destruct (IH acc) as [l' [Heq Hsel]].
      exists l'. split; [exact Heq |].
      apply Selected_skip; [| exact Hsel].
      rewrite <- Hf, Hx. discriminate.
Qed.

(** C7.  [GetRoutersFx] returns the entries whose path has the fixed prefix
    as a substring, at any position, in the order of insertion, and nothing
    else. *)
Theorem GetRoutersFx_selects :
  forall r,
    Selected (fun e => is_substring (PathFixed r) (Path e))
             (Routers r) (GetRoutersFx r)
    /\ (forall e, In e (GetRoutersFx r) <->
                  In e (Routers r) /\ is_substring (PathFixed r) (Path e)).
Proof.
  intros r.
  assert (Hsel : Selected (fun e => is_substring (PathFixed r) (Path e))
                          (Routers r) (GetRoutersFx r)).
  { unfold GetRoutersFx.
    destruct (append_loop_Selected
                (fun e => is_substring (PathFixed r) (Path e))
                (fun e => Contains (Path e) (PathFixed r))
                (fun e => Contains_spec (Path e) (PathFixed r))
                (Routers r) []) as [l' [Heq Hsel]].
    rewrite Heq. exact Hsel. }
  split; [exact Hsel | now apply Selected_In].
Qed.

End BuilderProperties.

(** ** Registration *)

Section RegistrarProperties.

Context {H Mw E G : Type} {engine_adapter : EngineAdapter H Mw E G}.
Variable range_order : nat -> gmap string H -> list (string * H).

Implicit Types (w : World H E) (engine : engine_ref G) (bs : list (binding H)).

Lemma World_eta w : {| echo := echo w; heap := heap w |} = w.
Proof. now destruct w. Qed.

(** The method names that select a route method are those of the fixed set. *)
Lemma verb_of_method_supported (method : string) :
  is_Some (verb_of_method method) <-> In method http_methods.
Proof.
  unfold verb_of_method, http_methods, http_MethodGet, http_MethodPost,
    http_MethodPut, http_MethodDelete, http_MethodPatch, http_MethodHead,
    http_MethodConnect, http_MethodOptions, http_MethodTrace.
  repeat match goal with
         | |- context [String.eqb method ?x] =>
             destruct (String.eqb_spec method x) as [-> | ?];
             [split; [intros _; simpl; tauto | intros _; eexists; reflexivity] |]
         end.
  split; [intros [v Hv]; discriminate Hv |].
  simpl. intros Hin.
  repeat (destruct Hin as [Hin | Hin]; [congruence |]).
  contradiction.
Qed.

Lemma verb_of_method_None (method : string) :
  verb_of_method method = None <-> ~ In method http_methods.
Proof.
  rewrite <- verb_of_method_supported.
  destruct (verb_of_method method); split; intros Hm.
  - discriminate Hm.
  - exfalso. apply Hm. eexists; reflexivity.
  - intros [v Hv]. discriminate Hv.
  - reflexivity.
Qed.

(** [registerMethod] by cases on the engine and on the method name. *)
Lemma Server_registerMethod_eq engine method path handler w :
  Server_registerMethod engine method path handler w =
  match engine with
  | OtherRef => (Err EngineTypeNotSupported, w)
  | _ =>
      match verb_of_method method with
      | Some v =>
          (Ok tt, {| echo := add_on engine v path handler (echo w);
                     heap := heap w |})
      | None => (Err (UnsupportedMethod method), w)
      end
  end.
Proof.
  unfold Server_registerMethod, verb_of_method, http_MethodGet,
    http_MethodPost, http_MethodPut, http_MethodDelete, http_MethodPatch,
    http_MethodHead, http_MethodConnect, http_MethodOptions, http_MethodTrace.
  destruct engine; [| | reflexivity];
    repeat match goal with
           | |- context [String.eqb method ?x] =>
               destruct (String.eqb method x); [reflexivity |]
           end;
    reflexivity.
Qed.

(** C5.  On the engine and on a group alike, [registerMethod] returns no
    error exactly when the method name is one of GET, POST, PUT, DELETE,
    PATCH, HEAD, CONNECT, OPTIONS, TRACE; for any other name it returns the
    unsupported-method error and leaves the engine as it was. *)
Theorem Server_registerMethod_supported :
  forall engine method path handler w,
    engine <> OtherRef ->
    ((Server_registerMethod engine method path handler w).1 = Ok tt
     <-> In method http_methods)
    /\ (~ In method http_methods ->
        Server_registerMethod engine method path handler w
        = (Err (UnsupportedMethod method), w)).
Proof.
  intros engine method path handler w Hengine.
  rewrite Server_registerMethod_eq, <- verb_of_method_None,
    <- verb_of_method_supported.
  destruct engine; [| | contradiction];
    (destruct (verb_of_method method) as [v |]; simpl;
     (split;
      [ split; first [ intros _; eexists; reflexivity
                     | reflexivity
                     | discriminate
                     | intros [v' Hv']; discriminate Hv' ]
      | first [discriminate | reflexivity] ])).
Qed.

(** *** The loops of [registerRouters] *)

Lemma use_loop_eq engine (middlewares : list Mw) w :
  use_loop engine middlewares w =
  (Ok tt, {| echo := use_all engine middlewares (echo w); heap := heap w |}).
Proof.
  revert w. induction middlewares as [| m ms IH]; intros w.
  - simpl. now rewrite World_eta.
  - simpl. unfold bind. destruct engine; simpl; now rewrite IH.
Qed.

Lemma stops_at_nil engine w : stops_at engine [] w (Ok tt, w).
Proof.
  exists [], []. split; [reflexivity |]. split; [constructor |].
  split; [simpl; now rewrite World_eta | left; split; reflexivity].
Qed.

Lemma stops_at_registerMethod engine method path handler w :
  engine <> OtherRef ->
  stops_at engine [(method, path, handler)] w
    (Server_registerMethod engine method path handler w).
Proof.
  intros Hengine. rewrite Server_registerMethod_eq.
  assert (Hcase :
    stops_at engine [(method, path, handler)] w
      match verb_of_method method with
      | Some v =>
          (Ok tt, {| echo := add_on engine v path handler (echo w);
                     heap := heap w |})
      | None => (Err (UnsupportedMethod method), w)
      end).
  { destruct (verb_of_method method) as [v |] eqn:Hv.
    - exists [(method, path, handler)], []. split; [reflexivity |]. split.
      + constructor; [| constructor]. simpl.
        apply verb_of_method_supported. rewrite Hv. eexists; reflexivity.
      + split; [| left; split; reflexivity].
        simpl. unfold bind_on. simpl. now rewrite Hv.
    - exists [], [(method, path, handler)]. split; [reflexivity |].
      split; [constructor |]. split; [simpl; now rewrite World_eta |].
      right. exists method, path, handler, []. split; [reflexivity |].
      split; [now apply verb_of_method_None | reflexivity]. }
  destruct engine; [exact Hcase | exact Hcase | contradiction].
Qed.

Lemma stops_at_bind engine bs1 bs2 (c1 c2 : M H E unit) w :
  stops_at engine bs1 w (c1 w) ->
  (forall w', stops_at engine bs2 w' (c2 w')) ->
  stops_at engine (bs1 ++ bs2) w (bind c1 (fun _ => c2) w).
Proof.
  intros (pre & post & Hbs & Hpre & Hw & Hres) H2. unfold bind.
  destruct (c1 w) as [o w1]. simpl in Hw, Hres. subst w1.
  destruct Hres as [[-> ->] | (method & path & handler & post' & -> & Hm & ->)].
  - rewrite app_nil_r in Hbs. subst bs1.
    destruct (H2 {| echo := bind_all engine pre (echo w); heap := heap w |})
      as (pre2 & post2 & Hbs2 & Hpre2 & Hw2 & Hres2).
    exists (pre ++ pre2), post2.
    split; [now rewrite Hbs2, app_assoc |].
    split; [now apply Forall_app |].
    split; [| exact Hres2].
    rewrite Hw2. simpl. unfold bind_all. now rewrite fold_left_app.
  - exists pre, (((method, path, handler) :: post') ++ bs2).
    split; [now rewrite Hbs, <- app_assoc |].
    split; [exact Hpre |]. split; [reflexivity |].
    right. exists method, path, handler, (post' ++ bs2).
    split; [reflexivity | split; [exact Hm | reflexivity]].
Qed.

Lemma methods_loop_stops engine path (methods : list (string * H)) w :
  engine <> OtherRef ->
  stops_at engine (map (fun mh : string * H => (mh.1, path, mh.2)) methods) w
    (methods_loop engine path methods w).
Proof.
  intros Hengine. revert w.
  induction methods as [| [method handler] rest IH]; intros w.
  - apply stops_at_nil.
  - change (stops_at engine
              ([(method, path, handler)]
               ++ map (fun mh : string * H => (mh.1, path, mh.2)) rest) w
              (bind (Server_registerMethod engine method path handler)
                    (fun _ => methods_loop engine path rest) w)).
    apply stops_at_bind; [now apply stops_at_registerMethod | exact IH].
Qed.

Lemma routers_loop_stops engine (routers : list (RegisterRouter H)) :
  engine <> OtherRef ->
  forall i w,
    stops_at engine (schedule range_order i routers) w
      (routers_loop range_order engine i routers w).
Proof.
  intros Hengine. induction routers as [| r rest IH]; intros i w.
  - apply stops_at_nil.
  - simpl. apply stops_at_bind; [now apply methods_loop_stops | apply IH].
Qed.

Lemma Server_registerRouters_eq engine l r (middlewares : list Mw) w :
  heap w !! l = Some r ->
  Server_registerRouters range_order engine (Some l) middlewares w =
  routers_loop range_order engine 0 (Routers r)
    {| echo := use_all engine middlewares (echo w); heap := heap w |}.
Proof.
  intros Hl. unfold Server_registerRouters, bind.
  rewrite use_loop_eq. unfold deref. simpl. now rewrite Hl.
Qed.

(** A valid group is resolved to its scope, then [registerRouters] runs. *)
Lemma Server_RegisterRouters_valid group routers (middlewares : list Mw) w :
  Kind_valid group = true ->
  Server_RegisterRouters range_order group routers middlewares w =
  Server_registerRouters range_order
    (resolve_scope group (echo w)).1 routers middlewares
    {| echo := (resolve_scope group (echo w)).2; heap := heap w |}.
Proof.
  intros Hk. apply Kind_valid_cases in Hk.
  unfold Server_RegisterRouters, resolve_scope.
  destruct Hk as [-> | [-> | [-> | [-> | [-> | [-> | ->]]]]]]; simpl;
    try (now rewrite World_eta);
    unfold bind, lift, call_Group; simpl;
    match goal with
    | |- context [Echo_Group ?n ?e] => destruct (Echo_Group n e) as [g e']
    end; reflexivity.
Qed.

Lemma resolve_scope_not_other group (e : E) :
  (resolve_scope group e).1 <> OtherRef.
Proof.
  unfold resolve_scope. destruct (group =? ROOT); [discriminate |].
  destruct (Echo_Group _ e). discriminate.
Qed.

Lemma schedule_In (routers : list (RegisterRouter H)) :
  (forall i m, range_order i m ≡ₚ map_to_list m) ->
  forall i e method handler,
    In e routers ->
    Methods e !! method = Some handler ->
    In (method, Path e, handler) (schedule range_order i routers).
Proof.
  intros Hperm. induction routers as [| r rest IH];
    intros i e method handler He Hm; [contradiction |].
  simpl. apply in_or_app. destruct He as [-> | He].
  - left.
    apply (in_map (fun mh : string * H => (mh.1, Path e, mh.2))
             _ (method, handler)).
    apply list_elem_of_In. rewrite Hperm. now apply elem_of_map_to_list.
  - right. now apply IH.
Qed.

(** *** Rejection of an invalid group *)

(** C2.  When the group is not one of [ROOT] ... [DOCS], [RegisterRouters]
    returns the invalid-group error and the world after the call is the
    world before it: no call has reached the engine, so no scope was
    created, no middleware applied and no route bound. *)
Theorem Server_RegisterRouters_invalid_group :
  forall group routers (middlewares : list Mw) w,
    ~ (ROOT <= group <= DOCS) ->
    Server_RegisterRouters range_order group routers middlewares w
    = (Err InvalidGroup, w).
Proof.
  intros group routers middlewares w Hk.
  unfold ROOT, DOCS in Hk. unfold Server_RegisterRouters.
  destruct (Z.eqb_spec group ROOT) as [-> | _]; [unfold ROOT in Hk; lia |].
  replace (existsb (Z.eqb group) [V1; V2; V3; DEV; API; DOCS]) with false;
    [reflexivity |].
  symmetry. apply not_true_is_false. intros Hex.
  apply existsb_exists in Hex. destruct Hex as [k [Hin Heq]].
  apply Z.eqb_eq in Heq. subst k. simpl in Hin.
  unfold V1, V2, V3, DEV, API, DOCS in Hin. lia.
Qed.

(** *** Unsupported method names *)

(** C3.  On a valid group, when some entry of the builder has a method name
    outside the fixed set, the call returns the unsupported-method error for
    the first such name in the order the loops visit the bindings.  The
    engine then holds the middlewares of the call and the bindings made
    before that name, and none of the bindings after it. *)
Theorem Server_RegisterRouters_unsupported_method :
  forall group l r (middlewares : list Mw) w,
    Kind_valid group = true ->
    (forall i m, range_order i m ≡ₚ map_to_list m) ->
    heap w !! l = Some r ->
    (exists e method,
       In e (Routers r) /\ is_Some (Methods e !! method) /\
       ~ In method http_methods) ->
    exists pre method path handler post,
      schedule range_order 0 (Routers r)
      = pre ++ (method, path, handler) :: post /\
      Forall (fun b : binding H => In b.1.1 http_methods) pre /\
      ~ In method http_methods /\
      Server_RegisterRouters range_order group (Some l) middlewares w
      = (Err (UnsupportedMethod method),
         {| echo :=
              bind_all (resolve_scope group (echo w)).1 pre
                (use_all (resolve_scope group (echo w)).1 middlewares
                   (resolve_scope group (echo w)).2);
            heap := heap w |}).
Proof.
  intros group l r middlewares w Hk Hperm Hl (e & bad & He & [h Hh] & Hbad).
  rewrite (Server_RegisterRouters_valid _ _ _ _ Hk).
  rewrite (Server_registerRouters_eq _ l r); [| exact Hl].
  set (sc := (resolve_scope group (echo w)).1).
  set (e1 := (resolve_scope group (echo w)).2).
  destruct (routers_loop_stops sc (Routers r)
              (resolve_scope_not_other group (echo w)) 0%nat
              {| echo := use_all sc middlewares e1; heap := heap w |})
    as (pre & post & Hbs & Hpre & Hw & Hres).
  destruct (routers_loop range_order sc 0 (Routers r) _) as [o w1].
  simpl in Hw, Hres. subst w1.
  destruct Hres as [[-> ->] | (method & path & handler & post' & -> & Hm & ->)].
  - exfalso. rewrite app_nil_r in Hbs.
    pose proof (schedule_In (Routers r) Hperm 0%nat e bad h He Hh) as Hin.
    rewrite Hbs in Hin. rewrite Forall_forall in Hpre.
    apply Hbad. apply (Hpre (bad, Path e, h)).
    apply list_elem_of_In. exact Hin.
  - exists pre, method, path, handler, post'. repeat split; assumption.
Qed.

(** *** Middlewares come first *)

(** C10.  On a valid group the engine after the call is the engine after
    the scope was resolved, then all the middlewares applied to the scope in
    order, then the bindings made: every middleware is applied before the
    first binding is attempted.  This holds when the call returns no error
    and when it returns the unsupported-method error; in the second case
    the middlewares are part of the final engine all the same. *)
Theorem Server_RegisterRouters_middlewares_first :
  forall group l r (middlewares : list Mw) w,
    Kind_valid group = true ->
    heap w !! l = Some r ->
    exists pre post,
      schedule range_order 0 (Routers r) = pre ++ post /\
      (Server_RegisterRouters range_order group (Some l) middlewares w).2
      = {| echo :=
             bind_all (resolve_scope group (echo w)).1 pre
               (use_all (resolve_scope group (echo w)).1 middlewares
                  (resolve_scope group (echo w)).2);
           heap := heap w |} /\
      ((post = [] /\
        (Server_RegisterRouters range_order group (Some l) middlewares w).1
        = Ok tt)
       \/ (exists method path handler post',
             post = (method, path, handler) :: post' /\
             ~ In method http_methods /\
             (Server_RegisterRouters range_order group (Some l) middlewares w).1
             = Err (UnsupportedMethod method))).
Proof.
  intros group l r middlewares w Hk Hl.
  rewrite (Server_RegisterRouters_valid _ _ _ _ Hk).
  rewrite (Server_registerRouters_eq _ l r); [| exact Hl].
  destruct (routers_loop_stops (resolve_scope group (echo w)).1 (Routers r)
              (resolve_scope_not_other group (echo w)) 0%nat
              {| echo := use_all (resolve_scope group (echo w)).1 middlewares
                           (resolve_scope group (echo w)).2;
                 heap := heap w |})
    as (pre & post & Hbs & _ & Hw & Hres).
  exists pre, post. split; [exact Hbs |]. split; [exact Hw | exact Hres].
Qed.

(** *** The builder is only read *)

Lemma keeps_heap_ret {A : Type} (a : A) : keeps_heap (@ret H E A a).
Proof. intros w. reflexivity. Qed.

Lemma keeps_heap_throw {A : Type} (e : error) : keeps_heap (@throw H E A e).
Proof. intros w. reflexivity. Qed.

Lemma keeps_heap_lift {A : Type} (o : outcome A) : keeps_heap (@lift H E A o).
Proof. intros w. reflexivity. Qed.

Lemma keeps_heap_on_echo (f : E -> E) : keeps_heap (@on_echo H E f).
Proof. intros w. reflexivity. Qed.

Lemma keeps_heap_call_Group (prefix : string) :
  keeps_heap (call_Group prefix).
Proof.
  intros w. unfold call_Group. now destruct (Echo_Group prefix (echo w)).
Qed.

Lemma keeps_heap_deref (p : ptr) : keeps_heap (@deref H E p).
Proof.
  intros w. unfold deref. destruct p as [l |]; [| reflexivity].
  now destruct (heap w !! l).
Qed.

Lemma keeps_heap_bind {A B : Type} (c : M H E A) (f : A -> M H E B) :
  keeps_heap c -> (forall a, keeps_heap (f a)) -> keeps_heap (bind c f).
Proof.
  intros Hc Hf w. unfold bind. specialize (Hc w).
  destruct (c w) as [[a | e | msg] w1]; simpl in *; [| exact Hc | exact Hc].
  now rewrite Hf.
Qed.

Lemma keeps_heap_registerMethod engine method path handler :
  keeps_heap (Server_registerMethod engine method path handler).
Proof.
  intros w. rewrite Server_registerMethod_eq.
  destruct engine; [| | reflexivity];
    now destruct (verb_of_method method).
Qed.

Lemma keeps_heap_use_loop engine (middlewares : list Mw) :
  keeps_heap (use_loop engine middlewares).
Proof. intros w. now rewrite use_loop_eq. Qed.

Lemma keeps_heap_methods_loop engine path (methods : list (string * H)) :
  keeps_heap (methods_loop engine path methods).
Proof.
  induction methods as [| [method handler] rest IH]; simpl.
  - apply keeps_heap_ret.
  - apply keeps_heap_bind; [apply keeps_heap_registerMethod | intros _; exact IH].
Qed.

Lemma keeps_heap_routers_loop engine (routers : list (RegisterRouter H)) :
  forall i, keeps_heap (routers_loop range_order engine i routers).
Proof.
  induction routers as [| r rest IH]; intros i; simpl.
  - apply keeps_heap_ret.
  - apply keeps_heap_bind; [apply keeps_heap_methods_loop | intros _; apply IH].
Qed.

Lemma keeps_heap_registerRouters engine routers (middlewares : list Mw) :
  keeps_heap (Server_registerRouters range_order engine routers middlewares).
Proof.
  unfold Server_registerRouters.
  apply keeps_heap_bind; [apply keeps_heap_use_loop | intros _].
  apply keeps_heap_bind; [apply keeps_heap_deref | intros r].
  apply keeps_heap_routers_loop.
Qed.

(** C8.  Whatever the group, the pointer, the middlewares and the outcome
    (no error, an error or a panic), every builder in memory is after the
    call what it was before: same fixed prefix, same entries, same paths and
    method maps, in the same order. *)
Theorem Server_RegisterRouters_keeps_builder :
  forall group routers (middlewares : list Mw) w,
    heap (Server_RegisterRouters range_order group routers middlewares w).2
    = heap w.
Proof.
  intros group routers middlewares.
  change (keeps_heap
            (Server_RegisterRouters range_order group routers middlewares)).
  unfold Server_RegisterRouters.
  destruct (group =? ROOT); [apply keeps_heap_registerRouters |].
  destruct (existsb (Z.eqb group) [V1; V2; V3; DEV; API; DOCS]);
    [| apply keeps_heap_throw].
  apply keeps_heap_bind; [apply keeps_heap_lift | intros name].
  apply keeps_heap_bind; [apply keeps_heap_call_Group | intros grp].
  apply keeps_heap_registerRouters.
Qed.

End RegistrarProperties.

(** ** The properties on a concrete registration *)

Example example_spec_paths :
  map Path (Routers example_spec) = ["/api/x"; "/bad"]%string.
Proof. reflexivity. Qed.

Example example_spec_schedule :
  schedule map_order 0 (Routers example_spec)
  = [("GET", "/api/x", 1%nat); ("FETCH", "/bad", 3%nat)]%string.
Proof. vm_compute. reflexivity. Qed.

(** The engine has seen the group, the middleware and the GET binding, in
    this order, when the FETCH entry is refused. *)
Example example_registration_calls :
  (Server_RegisterRouters map_order V1 (Some 0%nat) [7%nat] example_world).1
  = Err (UnsupportedMethod "FETCH")
  /\ echo (Server_RegisterRouters map_order V1 (Some 0%nat) [7%nat]
             example_world).2
     = [CallGroup "v1"; CallGroupUse 0 7%nat;
        CallGroupAdd 0 GET "/api/x" 1%nat].
Proof. split; vm_compute; reflexivity. Qed.

(** A nil builder makes the call panic once the middlewares are applied. *)
Example example_nil_builder :
  (Server_RegisterRouters map_order ROOT None [7%nat; 8%nat] example_world).1
  = Panic "nil pointer dereference"
  /\ echo (Server_RegisterRouters map_order ROOT None [7%nat; 8%nat]
             example_world).2
     = [CallEchoUse 7%nat; CallEchoUse 8%nat].
Proof. split; vm_compute; reflexivity. Qed.

(** A path that has the prefix in the middle is selected too. *)
Example GetRoutersFx_unanchored :
  map Path
    (GetRoutersFx
       (AddRouter "/other" (∅ : gmap string nat)
          (AddRouter "/v9/api/users" ∅
             (AddRouterFx "/x" ∅ (SetPathFixed "/api" NewRouters)))))
  = ["/api/x"; "/v9/api/users"]%string.
Proof. reflexivity. Qed.

Lemma Server_RegisterRouters_invalid_group_999 :
  ~ (ROOT <= 999 <= DOCS) /\
  Server_RegisterRouters map_order 999 (Some 0%nat) [7%nat] example_world
  = (Err InvalidGroup, example_world).
Proof.
  assert (Hk : ~ (ROOT <= 999 <= DOCS)) by (unfold ROOT, DOCS; lia).
  split; [exact Hk |].
  exact (Server_RegisterRouters_invalid_group (engine_adapter := recording_engine nat nat)
           map_order 999 (Some 0%nat) [7%nat] example_world Hk).
Defined.

Lemma example_spec_has_FETCH :
  exists (e : RegisterRouter nat) (method : string),
    In e (Routers example_spec) /\ is_Some (Methods e !! method) /\
    ~ In method http_methods.
Proof.
  exists {| Path := "/bad"; Methods := {[ "FETCH"%string := 3%nat ]} |},
         "FETCH"%string.
  split; [right; left; reflexivity |].
  split; [exists 3%nat; apply lookup_singleton_eq |].
  simpl. intros Hin.
  repeat (destruct Hin as [Hin | Hin]; [discriminate Hin |]).
  contradiction.
Defined.

Lemma Server_RegisterRouters_unsupported_method_FETCH :
  exists pre method path handler post,
    schedule map_order 0 (Routers example_spec)
    = pre ++ (method, path, handler) :: post /\
    Forall (fun b : binding nat => In b.1.1 http_methods) pre /\
    ~ In method http_methods /\
    Server_RegisterRouters map_order V1 (Some 0%nat) [7%nat] example_world
    = (Err (UnsupportedMethod method),
       {| echo :=
            bind_all (resolve_scope V1 (echo example_world)).1 pre
              (use_all (resolve_scope V1 (echo example_world)).1 [7%nat]
                 (resolve_scope V1 (echo example_world)).2);
          heap := heap example_world |}).
Proof.
  apply (Server_RegisterRouters_unsupported_method
           (engine_adapter := recording_engine nat nat)
           map_order V1 0%nat example_spec [7%nat] example_world).
  - reflexivity.
  - intros i m. reflexivity.
  - apply lookup_singleton_eq.
  - exact example_spec_has_FETCH.
Defined.

Lemma Server_RegisterRouters_middlewares_first_V1 :
  exists pre post,
    schedule map_order 0 (Routers example_spec) = pre ++ post /\
    (Server_RegisterRouters map_order V1 (Some 0%nat) [7%nat] example_world).2
    = {| echo :=
           bind_all (resolve_scope V1 (echo example_world)).1 pre
             (use_all (resolve_scope V1 (echo example_world)).1 [7%nat]
                (resolve_scope V1 (echo example_world)).2);
         heap := heap example_world |} /\
    ((post = [] /\
      (Server_RegisterRouters map_order V1 (Some 0%nat) [7%nat]
         example_world).1 = Ok tt)
     \/ (exists method path handler post',
           post = (method, path, handler) :: post' /\
           ~ In method http_methods /\
           (Server_RegisterRouters map_order V1 (Some 0%nat) [7%nat]
              example_world).1 = Err (UnsupportedMethod method))).
Proof.
  apply (Server_RegisterRouters_middlewares_first
           (engine_adapter := recording_engine nat nat)
           map_order V1 0%nat example_spec [7%nat] example_world).
  - reflexivity.
  - apply lookup_singleton_eq.
Defined.

Lemma Server_registerMethod_supported_GET :
  @EchoRef nat <> OtherRef /\
  ((Server_registerMethod EchoRef "GET" "/test" 1%nat example_world).1 = Ok tt
   <-> In "GET"%string http_methods)
  /\ (~ In "GET"%string http_methods ->
      Server_registerMethod EchoRef "GET" "/test" 1%nat example_world
      = (Err (UnsupportedMethod "GET"), example_world)).
Proof.
  assert (He : @EchoRef nat <> OtherRef) by discriminate.
  split; [exact He |].
  exact (Server_registerMethod_supported
           (engine_adapter := recording_engine nat nat)
           EchoRef "GET" "/test" 1%nat example_world He).
Defined.

Lemma AddRouterFx_only_space_three_blanks :
  AddRouterFx "   " (∅ : gmap string nat) (SetPathFixed "/api" NewRouters)
  = {| PathFixed := "/api";
       Routers := [ {| Path := "/api"; Methods := ∅ |} ] |}.
Proof.
  apply (AddRouterFx_only_space
           (SetPathFixed "/api" NewRouters) "   " (∅ : gmap string nat)).
  - discriminate.
  - exact OnlySpace_three_blanks.
Defined.

(** * Further properties *)

(** ** The builder: lookups after appends *)

Section BuilderLookups.

Context {H : Type}.
Implicit Types (r : RegisterRouters H) (methods : gmap string H).

Lemma HasPrefix_append (p t : string) : HasPrefix (p +:+ t) p = true.
Proof. apply HasPrefix_spec. now exists t. Qed.

Lemma HasPrefix_Contains (s sub : string) :
  HasPrefix s sub = true -> Contains s sub = true.
Proof.
  intros Hp. destruct s as [| c s].
  - change (Contains "" sub) with (HasPrefix "" sub || false).
    now rewrite Hp.
  - change (Contains (String c s) sub)
      with (HasPrefix (String c s) sub || Contains s sub).
    now rewrite Hp.
Qed.

(** [GetRouters] returns the entries stored under exactly the given path,
    in the order of insertion, and nothing else. *)
Theorem GetRouters_selects :
  forall path r,
    Selected (fun e => Path e = path) (Routers r) (GetRouters path r)
    /\ (forall e, In e (GetRouters path r) <->
                  In e (Routers r) /\ Path e = path).
Proof.
  intros path r.
  assert (Hsel : Selected (fun e => Path e = path)
                          (Routers r) (GetRouters path r)).
  { unfold GetRouters.
    destruct (append_loop_Selected
                (fun e : RegisterRouter H => Path e = path)
                (fun e => String.eqb (Path e) path)
                (fun e => String.eqb_eq (Path e) path)
                (Routers r) []) as [l' [Heq Hsel]].
    rewrite Heq. exact Hsel. }
  split; [exact Hsel | now apply Selected_In].
Qed.

(** An entry added with [AddRouter] is the last one [GetRouters] returns
    for its path; the lookups of every other path are as before. *)
Theorem GetRouters_AddRouter :
  forall r path methods path',
    GetRouters path' (AddRouter path methods r)
    = if decide (path = path')
      then GetRouters path' r ++ [ {| Path := path; Methods := methods |} ]
      else GetRouters path' r.
Proof.
  intros r path methods path'. unfold GetRouters, AddRouter. simpl Routers.
  rewrite fold_left_app. simpl.
  destruct (decide (path = path')) as [-> | Hne].
  - now rewrite String.eqb_refl.
  - apply String.eqb_neq in Hne. now rewrite Hne.
Qed.

Lemma GetRoutersFx_snoc r (e : RegisterRouter H) :
  GetRoutersFx {| PathFixed := PathFixed r; Routers := Routers r ++ [e] |}
  = if Contains (Path e) (PathFixed r)
    then GetRoutersFx r ++ [e] else GetRoutersFx r.
Proof. unfold GetRoutersFx. simpl. now rewrite fold_left_app. Qed.

(** The entry [AddRouterFx] adds has a path that starts with the fixed
    prefix, and [GetRoutersFx] returns it, after the entries it returned
    before. *)
Theorem GetRoutersFx_AddRouterFx :
  forall r params methods,
    exists e : RegisterRouter H,
      Routers (AddRouterFx params methods r) = Routers r ++ [e]
      /\ Methods e = methods
      /\ HasPrefix (Path e) (PathFixed r) = true
      /\ GetRoutersFx (AddRouterFx params methods r) = GetRoutersFx r ++ [e].
Proof.
  intros r params methods.
  eexists. split; [apply AddRouterFx_Routers |]. split; [reflexivity |].
  assert (Hp : HasPrefix
                 (if (0 <? String.length (TrimSpace params))%nat
                  then PathFixed r +:+ TrimSpace params
                  else PathFixed r) (PathFixed r) = true).
  { destruct (0 <? String.length (TrimSpace params))%nat.
    - apply HasPrefix_append.
    - rewrite <- (append_empty_r (PathFixed r)) at 1. apply HasPrefix_append. }
  split; [exact Hp |].
  unfold AddRouterFx. rewrite GetRoutersFx_snoc. simpl Path.
  now rewrite (HasPrefix_Contains _ _ Hp).
Qed.

(** With the empty fixed prefix, which is the prefix of a new builder,
    [GetRoutersFx] returns every entry. *)
Theorem GetRoutersFx_empty_prefix :
  forall r,
    PathFixed r = EmptyString ->
    GetRoutersFx r = GetAllRouters r.
Proof.
  intros r Hp. unfold GetRoutersFx, GetAllRouters. rewrite Hp.
  assert (Hall : forall (l acc : list (RegisterRouter H)),
            fold_left
              (fun routers router =>
                 if Contains (Path router) EmptyString
                 then routers ++ [router] else routers) l acc
            = acc ++ l).
  { induction l as [| e l IH]; intros acc; simpl.
    - now rewrite app_nil_r.
    - rewrite (HasPrefix_Contains (Path e) EmptyString);
        [| now destruct (Path e)].
      now rewrite IH, <- app_assoc. }
  apply (Hall (Routers r) []).
Qed.

(** The calls that add an entry under the fixed prefix. *)
Lemma GetRoutersFx_run_AddRouterFx (cs : list (builder_call H)) r :
  Forall (fun c => exists params methods, c = DoAddRouterFx params methods) cs ->
  GetRoutersFx r = GetAllRouters r ->
  GetRoutersFx (run_calls cs r) = GetAllRouters (run_calls cs r).
Proof.
  unfold run_calls. revert r.
  induction cs as [| c cs IH]; intros r Hcs Hr; [exact Hr |].
  inversion Hcs as [| c' cs' (params & methods & ->) Hcs' ]; subst.
  simpl. apply IH; [exact Hcs' |].
  destruct (GetRoutersFx_AddRouterFx r params methods)
    as (e & He & _ & _ & Hfx).
  unfold GetAllRouters in *. now rewrite Hfx, He, Hr.
Qed.

(** When the prefix is set first and every entry is then added with
    [AddRouterFx], [GetRoutersFx] and [GetAllRouters] return the same
    list: no entry is filtered out. *)
Theorem GetRoutersFx_all_prefixed :
  forall prefix (cs : list (builder_call H)),
    Forall (fun c => exists params methods, c = DoAddRouterFx params methods) cs ->
    GetRoutersFx (run_calls cs (SetPathFixed prefix NewRouters))
    = GetAllRouters (run_calls cs (SetPathFixed prefix NewRouters)).
Proof.
  intros prefix cs Hcs.
  apply GetRoutersFx_run_AddRouterFx; [exact Hcs | reflexivity].
Qed.

End BuilderLookups.

Lemma GetRoutersFx_empty_prefix_new :
  GetRoutersFx (AddRouter "/a" (∅ : gmap string nat) NewRouters)
  = GetAllRouters (AddRouter "/a" (∅ : gmap string nat) NewRouters).
Proof.
  apply (GetRoutersFx_empty_prefix
           (AddRouter "/a" (∅ : gmap string nat) NewRouters)).
  reflexivity.
Defined.

Lemma GetRoutersFx_all_prefixed_two :
  GetRoutersFx
    (run_calls [DoAddRouterFx "/x" (∅ : gmap string nat); DoAddRouterFx "" ∅]
       (SetPathFixed "/api" NewRouters))
  = GetAllRouters
      (run_calls [DoAddRouterFx "/x" (∅ : gmap string nat); DoAddRouterFx "" ∅]
         (SetPathFixed "/api" NewRouters)).
Proof.
  apply (GetRoutersFx_all_prefixed "/api"
           [DoAddRouterFx "/x" (∅ : gmap string nat); DoAddRouterFx "" ∅]).
  repeat constructor; eexists; eexists; reflexivity.
Defined.

(** ** Registration: outcomes *)

Section RegistrarOutcomes.

Context {H Mw E G : Type} {engine_adapter : EngineAdapter H Mw E G}.

Implicit Types (w : World H E) (engine : engine_ref G)
  (order : nat -> gmap string H -> list (string * H)).

(** A registration on a valid group with a builder in memory goes through
    the bindings of the builder, starting from the engine on which the scope
    is resolved and the middlewares are applied. *)
Lemma registration_stops_at order group l r (middlewares : list Mw) w :
  Kind_valid group = true ->
  heap w !! l = Some r ->
  stops_at (resolve_scope group (echo w)).1
    (schedule order 0 (Routers r))
    {| echo := use_all (resolve_scope group (echo w)).1 middlewares
                 (resolve_scope group (echo w)).2;
       heap := heap w |}
    (Server_RegisterRouters order group (Some l) middlewares w).
Proof.
  intros Hk Hl.
  rewrite (Server_RegisterRouters_valid _ _ _ _ _ Hk).
  rewrite (Server_registerRouters_eq _ _ l r); [| exact Hl].
  apply routers_loop_stops, resolve_scope_not_other.
Qed.

Lemma registration_invalid order group routers (middlewares : list Mw) w :
  Kind_valid group = false ->
  Server_RegisterRouters order group routers middlewares w
  = (Err InvalidGroup, w).
Proof.
  intros Hk. unfold Server_RegisterRouters.
  assert (Hr : ~ (0 <= group <= 6)).
  { rewrite <- Kind_valid_range, Hk. discriminate. }
  destruct (Z.eqb_spec group ROOT) as [-> | _]; [unfold ROOT in Hr; lia |].
  replace (existsb (Z.eqb group) [V1; V2; V3; DEV; API; DOCS]) with false;
    [reflexivity |].
  symmetry. apply not_true_is_false. intros Hex.
  apply existsb_exists in Hex. destruct Hex as [k [Hin Heq]].
  apply Z.eqb_eq in Heq. subst k. simpl in Hin.
  unfold V1, V2, V3, DEV, API, DOCS in Hin. lia.
Qed.

Lemma stops_at_Ok_iff engine (bs : list (binding H)) w res :
  stops_at engine bs w res ->
  (res.1 = Ok tt <-> Forall (fun b : binding H => In b.1.1 http_methods) bs).
Proof.
  intros (pre & post & -> & Hpre & _ & Hres).
  destruct Hres as [[-> Hr] | (method & path & handler & post' & -> & Hm & Hr)].
  - rewrite app_nil_r. tauto.
  - rewrite Hr. split; [discriminate |].
    intros Hall. exfalso. apply Forall_app in Hall as [_ Hall].
    inversion Hall as [| b bs' Hb _]. subst. now apply Hm.
Qed.

Lemma stops_at_Ok_state engine (bs : list (binding H)) w res :
  stops_at engine bs w res ->
  res.1 = Ok tt ->
  res.2 = {| echo := bind_all engine bs (echo w); heap := heap w |}.
Proof.
  intros (pre & post & -> & _ & Hw & Hres) Hok.
  destruct Hres as [[-> _] | (method & path & handler & post' & _ & _ & Hr)].
  - now rewrite app_nil_r.
  - rewrite Hr in Hok. discriminate Hok.
Qed.

Lemma schedule_In_inv order (routers : list (RegisterRouter H)) :
  (forall i m, order i m ≡ₚ map_to_list m) ->
  forall i method path handler,
    In (method, path, handler) (schedule order i routers) ->
    exists e, In e routers /\ path = Path e
              /\ Methods e !! method = Some handler.
Proof.
  intros Hperm. induction routers as [| r rest IH];
    intros i method path handler Hin; [contradiction |].
  simpl in Hin. apply in_app_or in Hin as [Hin | Hin].
  - apply in_map_iff in Hin as ([m h] & Heq & Hmh).
    simpl in Heq. injection Heq as -> <- ->.
    exists r. split; [now left |]. split; [reflexivity |].
    apply elem_of_map_to_list. rewrite <- (Hperm i).
    now apply list_elem_of_In.
  - destruct (IH _ _ _ _ Hin) as (e & He & Hp & Hm).
    exists e. split; [now right | now split].
Qed.

Lemma schedule_supported_iff order (routers : list (RegisterRouter H)) i :
  (forall i m, order i m ≡ₚ map_to_list m) ->
  (Forall (fun b : binding H => In b.1.1 http_methods)
     (schedule order i routers)
   <-> forall e method,
         In e routers -> is_Some (Methods e !! method) ->
         In method http_methods).
Proof.
  intros Hperm. rewrite Forall_forall. split.
  - intros Hall e method He [h Hh].
    apply (Hall (method, Path e, h)). apply list_elem_of_In.
    now apply schedule_In.
  - intros Hall [[method path] handler] Hin. simpl.
    apply list_elem_of_In in Hin.
    destruct (schedule_In_inv order routers Hperm _ _ _ _ Hin)
      as (e & He & _ & Hm).
    apply (Hall e method He). now exists handler.
Qed.

(** On a valid group, with a builder in memory, [RegisterRouters] returns
    no error exactly when every method name of every entry is one of the
    nine supported names; the engine then holds the middlewares and every
    binding of the builder. *)
Theorem Server_RegisterRouters_succeeds_iff :
  forall order group l r (middlewares : list Mw) w,
    (forall i m, order i m ≡ₚ map_to_list m) ->
    Kind_valid group = true ->
    heap w !! l = Some r ->
    ((Server_RegisterRouters order group (Some l) middlewares w).1 = Ok tt
     <-> forall e method,
           In e (Routers r) -> is_Some (Methods e !! method) ->
           In method http_methods)
    /\ ((Server_RegisterRouters order group (Some l) middlewares w).1 = Ok tt ->
        (Server_RegisterRouters order group (Some l) middlewares w).2
        = {| echo :=
               bind_all (resolve_scope group (echo w)).1
                 (schedule order 0 (Routers r))
                 (use_all (resolve_scope group (echo w)).1 middlewares
                    (resolve_scope group (echo w)).2);
             heap := heap w |}).
Proof.
  intros order group l r middlewares w Hperm Hk Hl.
  pose proof (registration_stops_at order group l r middlewares w Hk Hl)
    as Hstop.
  split.
  - rewrite (stops_at_Ok_iff _ _ _ _ Hstop).
    now apply schedule_supported_iff.
  - intros Hok. now rewrite (stops_at_Ok_state _ _ _ _ Hstop Hok).
Qed.


(** With a builder in memory the call does not panic, whatever the group:
    [Kind.String] is only reached for the values [V1] ... [DOCS]. *)
Theorem Server_RegisterRouters_no_panic :
  forall order group l r (middlewares : list Mw) w,
    heap w !! l = Some r ->
    forall msg,
      (Server_RegisterRouters order group (Some l) middlewares w).1
      <> Panic msg.
Proof.
  intros order group l r middlewares w Hl msg.
  destruct (Kind_valid group) eqn:Hk.
  - destruct (registration_stops_at order group l r middlewares w Hk Hl)
      as (pre & post & _ & _ & _ & Hres).
    destruct Hres as [[_ ->] | (method & path & handler & post' & _ & _ & ->)];
      discriminate.
  - rewrite (registration_invalid _ _ _ _ _ Hk). discriminate.
Qed.

(** With a nil builder on a valid group the call panics when it reads the
    entries: the scope is resolved and every middleware is applied by then,
    and no route is bound. *)
Theorem Server_RegisterRouters_nil_builder :
  forall order group (middlewares : list Mw) w,
    Kind_valid group = true ->
    Server_RegisterRouters order group None middlewares w
    = (Panic "nil pointer dereference",
       {| echo := use_all (resolve_scope group (echo w)).1 middlewares
                    (resolve_scope group (echo w)).2;
          heap := heap w |}).
Proof.
  intros order group middlewares w Hk.
  rewrite (Server_RegisterRouters_valid _ _ _ _ _ Hk).
  unfold Server_registerRouters, bind. now rewrite use_loop_eq.
Qed.

(** *** An engine that is neither the Echo engine nor a group *)

Lemma use_all_other (middlewares : list Mw) (e : E) :
  use_all OtherRef middlewares e = e.
Proof.
  unfold use_all. induction middlewares as [| m ms IH]; [reflexivity | exact IH].
Qed.

Lemma methods_loop_other path (methods : list (string * H)) w :
  methods_loop OtherRef path methods w
  = match methods with
    | [] => (Ok tt, w)
    | _ :: _ => (Err EngineTypeNotSupported, w)
    end.
Proof. destruct methods as [| [method handler] rest]; reflexivity. Qed.

Lemma routers_loop_other order (routers : list (RegisterRouter H)) :
  (forall i m, order i m ≡ₚ map_to_list m) ->
  forall i w,
    (Forall (fun e => Methods e = ∅) routers
     /\ routers_loop order OtherRef i routers w = (Ok tt, w))
    \/ (Exists (fun e => Methods e <> ∅) routers
        /\ routers_loop order OtherRef i routers w
           = (Err EngineTypeNotSupported, w)).
Proof.
  intros Hperm. induction routers as [| r rest IH]; intros i w.
  - left. split; [constructor | reflexivity].
  - simpl. unfold bind. rewrite methods_loop_other.
    destruct (order i (Methods r)) as [| mh rest'] eqn:Ho.
    + assert (Hr : Methods r = ∅).
      { apply map_to_list_empty_iff. apply Permutation_nil.
        rewrite <- Ho. apply Hperm. }
      destruct (IH (S i) w) as [[Hall Hrun] | [Hex Hrun]].
      * left. split; [now constructor | exact Hrun].
      * right. split; [now apply Exists_cons_tl | exact Hrun].
    + right. split; [| reflexivity].
      apply Exists_cons_hd. intros Hr.
      pose proof (Hperm i (Methods r)) as Hp.
      rewrite Ho, Hr, map_to_list_empty in Hp.
      symmetry in Hp. now apply Permutation_nil in Hp.
Qed.

(** When the engine handed to [registerRouters] is nil or of another type,
    there is nothing to call: the engine and the builders are left as they
    are, no middleware is applied, and the result is the engine-type error
    as soon as one entry has a method, and no error otherwise. *)
Theorem Server_registerRouters_other_engine :
  forall order l r (middlewares : list Mw) w,
    (forall i m, order i m ≡ₚ map_to_list m) ->
    heap w !! l = Some r ->
    (Forall (fun e => Methods e = ∅) (Routers r)
     /\ Server_registerRouters order OtherRef (Some l) middlewares w
        = (Ok tt, w))
    \/ (Exists (fun e => Methods e <> ∅) (Routers r)
        /\ Server_registerRouters order OtherRef (Some l) middlewares w
           = (Err EngineTypeNotSupported, w)).
Proof.
  intros order l r middlewares w Hperm Hl.
  rewrite (Server_registerRouters_eq _ _ l r); [| exact Hl].
  rewrite use_all_other, World_eta.
  now apply routers_loop_other.
Qed.

End RegistrarOutcomes.

(** ** Registration: the calls that reach the engine *)

Section RecordedCalls.

Context {H Mw : Type}.

Implicit Types (w : World H (list (call H Mw))) (tr : list (call H Mw))
  (order : nat -> gmap string H -> list (string * H)).

Lemma resolve_scope_recording group tr :
  Kind_valid group = true ->
  resolve_scope group tr = (scope_of group (length tr), tr ++ group_call group).
Proof.
  intros Hk. apply Kind_valid_cases in Hk.
  unfold resolve_scope, scope_of, group_call.
  destruct Hk as [-> | [-> | [-> | [-> | [-> | [-> | ->]]]]]]; simpl;
    first [now rewrite app_nil_r | reflexivity].
Qed.

Lemma use_all_recording (engine : engine_ref nat) (ms : list Mw) tr :
  use_all engine ms tr = tr ++ flat_map (use_call engine) ms.
Proof.
  unfold use_all. revert tr.
  induction ms as [| m ms IH]; intros tr; simpl; [now rewrite app_nil_r |].
  rewrite IH. destruct engine; simpl; now rewrite <- ?app_assoc.
Qed.

Lemma bind_all_recording (engine : engine_ref nat) (bs : list (binding H)) tr :
  bind_all engine bs tr = tr ++ flat_map (bind_call engine) bs.
Proof.
  unfold bind_all. revert tr.
  induction bs as [| b bs IH]; intros tr; simpl; [now rewrite app_nil_r |].
  rewrite IH. unfold bind_on, bind_call.
  destruct (verb_of_method b.1.1); destruct engine; simpl;
    now rewrite <- ?app_assoc.
Qed.

Lemma bind_call_length (group : Kind) (n : nat) (bs : list (binding H)) :
  Forall (fun b : binding H => In b.1.1 http_methods) bs ->
  length (flat_map (@bind_call H Mw (scope_of group n)) bs) = length bs.
Proof.
  induction 1 as [| b bs Hb _ IH]; [reflexivity |].
  simpl. rewrite length_app, IH. f_equal.
  apply verb_of_method_supported in Hb as [v Hv].
  unfold bind_call, scope_of. rewrite Hv. now destruct (group =? ROOT).
Qed.

Lemma schedule_Permutation order1 order2 (routers : list (RegisterRouter H)) :
  (forall i m, order1 i m ≡ₚ map_to_list m) ->
  (forall i m, order2 i m ≡ₚ map_to_list m) ->
  forall i, schedule order1 i routers ≡ₚ schedule order2 i routers.
Proof.
  intros H1 H2. induction routers as [| r rest IH]; intros i; [reflexivity |].
  simpl. apply Permutation_app; [| apply IH].
  apply Permutation_map. now rewrite H1, H2.
Qed.

(** On a valid group the registration adds to the calls the engine has
    seen, and removes none: first the [Group] call with the name of the
    group, unless the group is root; then one [Use] per middleware, in the
    order given, on the engine for root and on the new group otherwise;
    then one route call per binding made, in the order the loops visit
    them, up to the first unsupported method name. *)
Theorem Server_RegisterRouters_recorded_calls :
  forall order group l r (middlewares : list Mw) w,
    Kind_valid group = true ->
    heap w !! l = Some r ->
    exists pre post,
      schedule order 0 (Routers r) = pre ++ post
      /\ echo (Server_RegisterRouters order group (Some l) middlewares w).2
         = echo w ++ group_call group
           ++ flat_map (use_call (scope_of group (length (echo w)))) middlewares
           ++ flat_map (bind_call (scope_of group (length (echo w)))) pre
      /\ length (flat_map
                   (@bind_call H Mw (scope_of group (length (echo w)))) pre)
         = length pre
      /\ ((post = []
           /\ (Server_RegisterRouters order group (Some l) middlewares w).1
              = Ok tt)
          \/ (exists method path handler post',
                post = (method, path, handler) :: post'
                /\ ~ In method http_methods
                /\ (Server_RegisterRouters order group (Some l) middlewares w).1
                   = Err (UnsupportedMethod method))).
Proof.
  intros order group l r middlewares w Hk Hl.
  destruct (registration_stops_at order group l r middlewares w Hk Hl)
    as (pre & post & Hbs & Hpre & Hw & Hres).
  exists pre, post. split; [exact Hbs |].
  split; [| split; [now apply bind_call_length | exact Hres]].
  rewrite Hw. simpl echo.
  rewrite (resolve_scope_recording group (echo w) Hk). simpl.
  rewrite bind_all_recording, use_all_recording.
  now rewrite <- !app_assoc.
Qed.

(** When the call returns no error, the order in which the maps are visited
    changes nothing but the order of the route calls: under two orders the
    engine sees the same [Group] and [Use] calls, followed by route calls
    that are a permutation of one another. *)
Theorem Server_RegisterRouters_orders_permute :
  forall order1 order2 group l r (middlewares : list Mw) w,
    (forall i m, order1 i m ≡ₚ map_to_list m) ->
    (forall i m, order2 i m ≡ₚ map_to_list m) ->
    Kind_valid group = true ->
    heap w !! l = Some r ->
    (Server_RegisterRouters order1 group (Some l) middlewares w).1 = Ok tt ->
    exists routes1 routes2,
      echo (Server_RegisterRouters order1 group (Some l) middlewares w).2
      = (echo w ++ group_call group
         ++ flat_map (use_call (scope_of group (length (echo w)))) middlewares)
        ++ routes1
      /\ echo (Server_RegisterRouters order2 group (Some l) middlewares w).2
         = (echo w ++ group_call group
            ++ flat_map (use_call (scope_of group (length (echo w)))) middlewares)
           ++ routes2
      /\ routes1 ≡ₚ routes2.
Proof.
  intros order1 order2 group l r middlewares w H1 H2 Hk Hl Hok1.
  pose proof (registration_stops_at order1 group l r middlewares w Hk Hl) as S1.
  pose proof (registration_stops_at order2 group l r middlewares w Hk Hl) as S2.
  assert (Hok2 :
    (Server_RegisterRouters order2 group (Some l) middlewares w).1 = Ok tt).
  { apply (stops_at_Ok_iff _ _ _ _ S2).
    apply (schedule_supported_iff order2 _ _ H2).
    apply (schedule_supported_iff order1 _ 0%nat H1).
    now apply (stops_at_Ok_iff _ _ _ _ S1). }
  rewrite (stops_at_Ok_state _ _ _ _ S1 Hok1).
  rewrite (stops_at_Ok_state _ _ _ _ S2 Hok2).
  simpl echo. rewrite (resolve_scope_recording group (echo w) Hk). simpl.
  exists (flat_map (bind_call (scope_of group (length (echo w))))
            (schedule order1 0 (Routers r))),
         (flat_map (bind_call (scope_of group (length (echo w))))
            (schedule order2 0 (Routers r))).
  rewrite !bind_all_recording, !use_all_recording, <- !app_assoc.
  split; [reflexivity | split; [reflexivity |]].
  apply Permutation_flat_map. now apply schedule_Permutation.
Qed.

End RecordedCalls.

(** ** ServerParams, NewServer and the listening address *)

Section ParamsProperties.

Context {L Er E : Type}.
Variable Echo_New : E.
Variable Echo_HideBanner : bool -> E -> E.

Implicit Types (s : ServerParams L) (opts : list (Options L Er)).

Lemma apply_options_app opts1 opts2 s :
  apply_options (opts1 ++ opts2) s
  = match apply_options opts1 s with
    | inl s' => apply_options opts2 s'
    | inr e => inr e
    end.
Proof.
  revert s. induction opts1 as [| opt rest IH]; intros s; [reflexivity |].
  simpl. destruct (opt s) as [s' [e |]]; [reflexivity | apply IH].
Qed.

(** An option given last decides its field, whatever the options before it
    did, and leaves the other fields as they were; the options for
    different fields can be given in either order. *)
Theorem newServerParams_last_option :
  forall opts s port host slog,
    newServerParams opts = inl s ->
    newServerParams (opts ++ [WithPort port]) = inl (SetPort port s)
    /\ newServerParams (opts ++ [WithHost host]) = inl (SetHost host s)
    /\ newServerParams (opts ++ [WithSlog slog]) = inl (SetSlog slog s)
    /\ newServerParams (opts ++ [WithPort port; WithHost host])
       = newServerParams (opts ++ [WithHost host; WithPort port]).
Proof.
  intros opts s port host slog Hs. unfold newServerParams in *.
  rewrite !apply_options_app, Hs. repeat split; reflexivity.
Qed.

(** The first option that returns an error ends [newServerParams] and
    [NewServer] with that error; the options after it are not run. *)
Theorem newServerParams_first_error :
  forall opts1 opt opts2 s s' e,
    newServerParams opts1 = inl s ->
    opt s = (s', Some e) ->
    newServerParams (opts1 ++ opt :: opts2) = inr e
    /\ NewServer Echo_New Echo_HideBanner (opts1 ++ opt :: opts2) = inr e.
Proof.
  intros opts1 opt opts2 s s' e Hs He.
  assert (Hp : newServerParams (opts1 ++ opt :: opts2) = inr e).
  { unfold newServerParams in *. rewrite apply_options_app, Hs.
    simpl. now rewrite He. }
  split; [exact Hp |]. unfold NewServer. now rewrite Hp.
Qed.

(** With the options of this package, [WithPort], [WithHost] and
    [WithSlog], [newServerParams] and [NewServer] return no error. *)
Theorem newServerParams_With_options :
  forall opts,
    Forall (fun opt => (exists port, opt = WithPort port)
                       \/ (exists host, opt = WithHost host)
                       \/ (exists slog, opt = WithSlog slog)) opts ->
    exists s,
      newServerParams opts = inl s
      /\ NewServer Echo_New Echo_HideBanner opts
         = inl {| Server_port := Port s; Server_host := Host s;
                  Server_echo := Echo_HideBanner true Echo_New;
                  Server_params := s |}.
Proof.
  intros opts Hopts.
  assert (Hall : forall s0, exists s, apply_options opts s0 = inl s).
  { induction Hopts as [| opt rest Hopt _ IH]; intros s0.
    - now exists s0.
    - destruct Hopt as [[port ->] | [[host ->] | [slog ->]]]; simpl; apply IH. }
  destruct (Hall {| Port := ""; Host := ""; Slog := None |}) as [s Hs].
  exists s. split; [exact Hs |].
  unfold NewServer, newServerParams. now rewrite Hs.
Qed.

(** A server built with [WithHost host] and [WithPort port] as its last
    options listens on "host:port", and on "host" alone, without a colon,
    when the port is the empty string. *)
Theorem NewServer_Start_host :
  forall opts s host port,
    newServerParams opts = inl s ->
    exists srv,
      NewServer Echo_New Echo_HideBanner
        (opts ++ [WithHost host; WithPort port]) = inl srv
      /\ Server_Start_host srv
         = (if decide (port = EmptyString) then host
            else host +:+ ":" +:+ port)
      /\ Server_params srv = SetPort port (SetHost host s).
Proof.
  intros opts s host port Hs.
  unfold NewServer, newServerParams in *.
  rewrite apply_options_app, Hs. simpl.
  eexists. split; [reflexivity |]. split; [| reflexivity].
  unfold Server_Start_host. simpl.
  destruct port as [| c port]; reflexivity.
Qed.

End ParamsProperties.

(** ** The suffix of AddRouterFx: white space around it does not count *)

Lemma TrimLeftSpace_length (s : string) :
  (String.length (TrimLeftSpace s) <= String.length s)%nat.
Proof.
  destruct (TrimLeftSpace_decomp s) as [p [_ Hs]].
  rewrite Hs at 2. clear Hs.
  induction p as [| c p IH]; [rewrite append_empty_l; lia |].
  rewrite append_cons. simpl String.length. lia.
Qed.

Lemma TrimLeftSpace_shorter (c : ascii) (s t : string) :
  (String.length s < String.length t)%nat -> TrimLeftSpace s <> t.
Proof.
  intros Hlt Heq. pose proof (TrimLeftSpace_length s) as Hle.
  rewrite Heq in Hle. lia.
Qed.

(** A string that starts with no white space keeps this property when it is
    cut short. *)
Lemma TrimLeftSpace_fixed_prefix (u v : string) :
  TrimLeftSpace (u +:+ v) = u +:+ v -> TrimLeftSpace u = u.
Proof.
  destruct u as [| c1 r1]; [reflexivity |].
  rewrite append_cons. simpl.
  destruct (asciiSpace c1).
  { intros Hf. exfalso. revert Hf.
    apply (TrimLeftSpace_shorter c1). simpl. lia. }
  destruct r1 as [| c2 r2]; [reflexivity |].
  rewrite append_cons.
  destruct (isSpace2 c1 c2).
  { intros Hf. exfalso. revert Hf.
    apply (TrimLeftSpace_shorter c1). simpl. lia. }
  destruct r2 as [| c3 r3]; [reflexivity |].
  rewrite append_cons.
  destruct (isSpace3 c1 c2 c3); [| reflexivity].
  intros Hf. exfalso. revert Hf.
  apply (TrimLeftSpace_shorter c1). simpl. lia.
Qed.

Lemma TrimLeftSpace_idempotent (s : string) :
  TrimLeftSpace (TrimLeftSpace s) = TrimLeftSpace s.
Proof.
  assert (Hn : forall n s, (String.length s <= n)%nat ->
               TrimLeftSpace (TrimLeftSpace s) = TrimLeftSpace s).
  { clear s. induction n as [| n IH]; intros s Hlen.
    - destruct s; [reflexivity | simpl in Hlen; lia].
    - destruct s as [| c1 r1]; [reflexivity |].
      simpl in Hlen. simpl TrimLeftSpace at 2 3.
      destruct (asciiSpace c1) eqn:H1; [apply IH; lia |].
      destruct r1 as [| c2 r2]; [simpl; now rewrite H1 |].
      simpl in Hlen.
      destruct (isSpace2 c1 c2) eqn:H2; [apply IH; lia |].
      destruct r2 as [| c3 r3]; [simpl; now rewrite H1, H2 |].
      simpl in Hlen.
      destruct (isSpace3 c1 c2 c3) eqn:H3; [apply IH; lia |].
      simpl. now rewrite H1, H2, H3. }
  apply (Hn (String.length s)). lia.
Qed.

Lemma trimLeftSpaceRev_idempotent (l : list ascii) :
  trimLeftSpaceRev (trimLeftSpaceRev l) = trimLeftSpaceRev l.
Proof.
  assert (Hn : forall n l, (length l <= n)%nat ->
               trimLeftSpaceRev (trimLeftSpaceRev l) = trimLeftSpaceRev l).
  { clear l. induction n as [| n IH]; intros l Hlen.
    - destruct l; [reflexivity | simpl in Hlen; lia].
    - destruct l as [| c1 r1]; [reflexivity |].
      simpl in Hlen. simpl trimLeftSpaceRev at 2 3.
      destruct (asciiSpace c1) eqn:H1; [apply IH; lia |].
      destruct r1 as [| c2 r2]; [simpl; now rewrite H1 |].
      simpl in Hlen.
      destruct (isSpace2 c2 c1) eqn:H2; [apply IH; lia |].
      destruct r2 as [| c3 r3]; [simpl; now rewrite H1, H2 |].
      simpl in Hlen.
      destruct (isSpace3 c3 c2 c1) eqn:H3; [apply IH; lia |].
      simpl. now rewrite H1, H2, H3. }
  apply (Hn (length l)). lia.
Qed.

Lemma TrimRightSpace_idempotent (t : string) :
  TrimRightSpace (TrimRightSpace t) = TrimRightSpace t.
Proof.
  unfold TrimRightSpace.
  now rewrite list_ascii_of_string_of_list_ascii, rev_involutive,
    trimLeftSpaceRev_idempotent.
Qed.

Lemma TrimRightSpace_prefix (t : string) :
  exists v : string, t = TrimRightSpace t +:+ v.
Proof.
  unfold TrimRightSpace.
  destruct (trimLeftSpaceRev_decomp (rev (list_ascii_of_string t)))
    as [p [Hl _]].
  exists (string_of_list_ascii (rev p)).
  rewrite <- string_of_list_ascii_app, <- rev_app_distr, <- Hl.
  now rewrite rev_involutive, string_of_list_ascii_of_string.
Qed.

Lemma TrimSpace_idempotent (s : string) :
  TrimSpace (TrimSpace s) = TrimSpace s.
Proof.
  unfold TrimSpace.
  destruct (TrimRightSpace_prefix (TrimLeftSpace s)) as [v Hv].
  assert (Hu : TrimLeftSpace (TrimRightSpace (TrimLeftSpace s))
               = TrimRightSpace (TrimLeftSpace s)).
  { apply (TrimLeftSpace_fixed_prefix _ v).
    rewrite <- Hv. apply TrimLeftSpace_idempotent. }
  rewrite Hu. apply TrimRightSpace_idempotent.
Qed.

(** [AddRouterFx] stores the same entry for a suffix and for the suffix
    without the white space around it: a suffix passed with leading or
    trailing blanks, tabs or line ends gives the path of the bare suffix. *)
Theorem AddRouterFx_ignores_outer_space :
  forall (H : Type) (r : RegisterRouters H) params methods,
    AddRouterFx (TrimSpace params) methods r = AddRouterFx params methods r.
Proof.
  intros H r params methods. unfold AddRouterFx.
  now rewrite TrimSpace_idempotent.
Qed.

(** ** The further properties on concrete inputs *)

Lemma map_order_Permutation {H : Type} :
  forall (i : nat) (m : gmap string H), map_order i m ≡ₚ map_to_list m.
Proof. intros i m. reflexivity. Defined.

Lemma rev_order_Permutation {H : Type} :
  forall (i : nat) (m : gmap string H), rev_order i m ≡ₚ map_to_list m.
Proof. intros i m. unfold rev_order. symmetry. apply Permutation_rev. Defined.

Example example_get_post_orders :
  schedule map_order 0 (Routers example_get_post)
  = rev (schedule rev_order 0 (Routers example_get_post))
  /\ length (schedule map_order 0 (Routers example_get_post)) = 2%nat.
Proof. split; vm_compute; reflexivity. Qed.

Lemma Server_RegisterRouters_succeeds_iff_V1 :
  ((Server_RegisterRouters map_order V1 (Some 0%nat) [7%nat] example_world_ok).1
   = Ok tt
   <-> forall e method,
         In e (Routers example_get_post) -> is_Some (Methods e !! method) ->
         In method http_methods)
  /\ ((Server_RegisterRouters map_order V1 (Some 0%nat) [7%nat]
         example_world_ok).1 = Ok tt ->
      (Server_RegisterRouters map_order V1 (Some 0%nat) [7%nat]
         example_world_ok).2
      = {| echo :=
             bind_all (resolve_scope V1 (echo example_world_ok)).1
               (schedule map_order 0 (Routers example_get_post))
               (use_all (resolve_scope V1 (echo example_world_ok)).1 [7%nat]
                  (resolve_scope V1 (echo example_world_ok)).2);
           heap := heap example_world_ok |}).
Proof.
  apply (Server_RegisterRouters_succeeds_iff
           (engine_adapter := recording_engine nat nat)
           map_order V1 0%nat example_get_post [7%nat] example_world_ok).
  - exact map_order_Permutation.
  - reflexivity.
  - apply lookup_singleton_eq.
Defined.


Lemma Server_RegisterRouters_no_panic_999 :
  (Server_RegisterRouters map_order 999 (Some 0%nat) [7%nat] example_world).1
  <> Panic "index out of range".
Proof.
  apply (Server_RegisterRouters_no_panic
           (engine_adapter := recording_engine nat nat)
           map_order 999 0%nat example_spec [7%nat] example_world).
  apply lookup_singleton_eq.
Defined.

Lemma Server_RegisterRouters_nil_builder_DOCS :
  Server_RegisterRouters map_order DOCS None [7%nat; 8%nat] example_world
  = (Panic "nil pointer dereference",
     {| echo := use_all (resolve_scope DOCS (echo example_world)).1
                  [7%nat; 8%nat]
                  (resolve_scope DOCS (echo example_world)).2;
        heap := heap example_world |}).
Proof.
  apply (Server_RegisterRouters_nil_builder
           (engine_adapter := recording_engine nat nat)
           map_order DOCS [7%nat; 8%nat] example_world).
  reflexivity.
Defined.

Lemma Server_registerRouters_other_engine_nil :
  (Forall (fun e : RegisterRouter nat => Methods e = ∅) (Routers example_spec)
   /\ Server_registerRouters map_order (@OtherRef nat) (Some 0%nat) [7%nat]
        example_world = (Ok tt, example_world))
  \/ (Exists (fun e : RegisterRouter nat => Methods e <> ∅)
        (Routers example_spec)
      /\ Server_registerRouters map_order (@OtherRef nat) (Some 0%nat) [7%nat]
           example_world = (Err EngineTypeNotSupported, example_world)).
Proof.
  apply (Server_registerRouters_other_engine
           (engine_adapter := recording_engine nat nat)
           map_order 0%nat example_spec [7%nat] example_world).
  - exact map_order_Permutation.
  - apply lookup_singleton_eq.
Defined.

Lemma Server_RegisterRouters_recorded_calls_V1 :
  exists pre post,
    schedule map_order 0 (Routers example_spec) = pre ++ post
    /\ echo (Server_RegisterRouters map_order V1 (Some 0%nat) [7%nat]
               example_world).2
       = echo example_world ++ group_call V1
         ++ flat_map (use_call (scope_of V1 (length (echo example_world))))
              [7%nat]
         ++ flat_map (bind_call (scope_of V1 (length (echo example_world))))
              pre
    /\ length (flat_map
                 (@bind_call nat nat
                    (scope_of V1 (length (echo example_world)))) pre)
       = length pre
    /\ ((post = []
         /\ (Server_RegisterRouters map_order V1 (Some 0%nat) [7%nat]
               example_world).1 = Ok tt)
        \/ (exists method path handler post',
              post = (method, path, handler) :: post'
              /\ ~ In method http_methods
              /\ (Server_RegisterRouters map_order V1 (Some 0%nat) [7%nat]
                    example_world).1 = Err (UnsupportedMethod method))).
Proof.
  apply (Server_RegisterRouters_recorded_calls
           map_order V1 0%nat example_spec [7%nat] example_world).
  - reflexivity.
  - apply lookup_singleton_eq.
Defined.

Lemma Server_RegisterRouters_orders_permute_V1 :
  exists routes1 routes2,
    echo (Server_RegisterRouters map_order V1 (Some 0%nat) [7%nat]
            example_world_ok).2
    = (echo example_world_ok ++ group_call V1
       ++ flat_map (use_call (scope_of V1 (length (echo example_world_ok))))
            [7%nat])
      ++ routes1
    /\ echo (Server_RegisterRouters rev_order V1 (Some 0%nat) [7%nat]
               example_world_ok).2
       = (echo example_world_ok ++ group_call V1
          ++ flat_map (use_call (scope_of V1 (length (echo example_world_ok))))
               [7%nat])
         ++ routes2
    /\ routes1 ≡ₚ routes2.
Proof.
  apply (Server_RegisterRouters_orders_permute
           map_order rev_order V1 0%nat example_get_post [7%nat]
           example_world_ok).
  - exact map_order_Permutation.
  - exact rev_order_Permutation.
  - reflexivity.
  - apply lookup_singleton_eq.
  - vm_compute. reflexivity.
Defined.

Lemma newServerParams_last_option_8080 :
  newServerParams (L := unit) (Er := string)
    ([WithPort "80"; WithHost "a"] ++ [WithPort "8080"])
  = inl (SetPort "8080" {| Port := "80"; Host := "a"; Slog := None |})
  /\ newServerParams (L := unit) (Er := string)
       ([WithPort "80"; WithHost "a"] ++ [WithHost "localhost"])
     = inl (SetHost "localhost" {| Port := "80"; Host := "a"; Slog := None |})
  /\ newServerParams (L := unit) (Er := string)
       ([WithPort "80"; WithHost "a"] ++ [WithSlog (Some tt)])
     = inl (SetSlog (Some tt) {| Port := "80"; Host := "a"; Slog := None |})
  /\ newServerParams (L := unit) (Er := string)
       ([WithPort "80"; WithHost "a"]
        ++ [WithPort "8080"; WithHost "localhost"])
     = newServerParams
         ([WithPort "80"; WithHost "a"]
          ++ [WithHost "localhost"; WithPort "8080"]).
Proof.
  apply (newServerParams_last_option
           [WithPort "80"; WithHost "a"]
           {| Port := "80"; Host := "a"; Slog := None |}
           "8080" "localhost" (Some tt)).
  reflexivity.
Defined.

Lemma newServerParams_first_error_bad :
  newServerParams (L := unit) (Er := string)
    ([WithPort "80"] ++ (fun s => (s, Some "bad"%string)) :: [WithHost "a"])
  = inr "bad"%string
  /\ NewServer (L := unit) (Er := string) 0%nat (fun _ e => e)
       ([WithPort "80"] ++ (fun s => (s, Some "bad"%string)) :: [WithHost "a"])
     = inr "bad"%string.
Proof.
  apply (newServerParams_first_error 0%nat (fun _ e => e)
           [WithPort "80"] (fun s => (s, Some "bad"%string)) [WithHost "a"]
           {| Port := "80"; Host := ""; Slog := None |}
           {| Port := "80"; Host := ""; Slog := None |} "bad"%string);
    reflexivity.
Defined.

Lemma newServerParams_With_options_three :
  exists s : ServerParams unit,
    newServerParams (Er := string)
      [WithPort "80"; WithHost "a"; WithSlog (Some tt)] = inl s
    /\ NewServer (Er := string) 0%nat (fun _ e => S e)
         [WithPort "80"; WithHost "a"; WithSlog (Some tt)]
       = inl {| Server_port := Port s; Server_host := Host s;
                Server_echo := 1%nat; Server_params := s |}.
Proof.
  apply (newServerParams_With_options (Er := string) 0%nat (fun _ e => S e)
           [WithPort "80"; WithHost "a"; WithSlog (Some tt)]).
  constructor; [left; now exists "80"%string |].
  constructor; [right; left; now exists "a"%string |].
  constructor; [right; right; now exists (Some tt) | constructor].
Defined.

Lemma NewServer_Start_host_localhost :
  exists srv : Server unit nat,
    NewServer (Er := string) 0%nat (fun _ e => S e)
      ([WithPort "80"] ++ [WithHost "localhost"; WithPort "8080"]) = inl srv
    /\ Server_Start_host srv
       = (if decide ("8080"%string = EmptyString) then "localhost"%string
          else "localhost" +:+ ":" +:+ "8080")
    /\ Server_params srv
       = SetPort "8080"
           (SetHost "localhost" {| Port := "80"; Host := ""; Slog := None |}).
Proof.
  apply (NewServer_Start_host (Er := string) 0%nat (fun _ e => S e)
           [WithPort "80"] {| Port := "80"; Host := ""; Slog := None |}
           "localhost" "8080").
  reflexivity.
Defined.

Example Server_Start_host_examples :
  Server_Start_host
    {| Server_port := "8080"; Server_host := "localhost";
       Server_echo := 0%nat;
       Server_params := {| Port := "8080"; Host := "localhost";
                           Slog := @None unit |} |}
  = "localhost:8080"%string
  /\ Server_Start_host
       {| Server_port := ""; Server_host := "localhost";
          Server_echo := 0%nat;
          Server_params := {| Port := ""; Host := "localhost";
                              Slog := @None unit |} |}
     = "localhost"%string.
Proof. split; reflexivity. Qed.
